(** * Factom entry/chain codec and wallet JSON-RPC dispatcher

    A shallow embedding of [wsapistructs.go]: the binary encoding and the
    hashes of [Entry] and [Chain] (package [factom]) and the version 2
    request dispatcher of the wallet API (package [wsapi]).

    Go data is modelled as follows.
    - [[]byte] is [list byte]; [len] is [length], read as a [Z].
    - The integer conversions [byte(n)], [uint8(n)], [uint32(n)] and
      [uint64(n)] keep the low 8, 8, 32 and 64 bits: the wrap-around is
      written out with [mod].
    - [bytes.Buffer] is the list of bytes written so far, threaded through
      the calls.
    - A method with a pointer receiver that assigns a field returns the
      updated struct next to its result. *)

From Stdlib Require Import ZArith List Bool Lia.
From Stdlib.Strings Require Import String Ascii Byte.
Import ListNotations.
Local Open Scope Z_scope.

(** ** Integer conversions and bytes *)

(** [len(x)] as a Go [int]. *)
Definition len {A : Type} (l : list A) : Z := Z.of_nat (List.length l).

Definition uint8 (n : Z) : Z := n mod 2 ^ 8.
Definition uint32 (n : Z) : Z := n mod 2 ^ 32.
Definition uint64 (n : Z) : Z := n mod 2 ^ 64.

(** The conversion [byte(n)]: the byte holding the low eight bits of [n]. *)
Definition byte_of_Z (n : Z) : byte :=
  match Byte.of_N (Z.to_N (uint8 n)) with
  | Some b => b
  | None => x00
  end.

Definition Z_of_byte (b : byte) : Z := Z.of_N (Byte.to_N b).

(** ** [encoding/binary], big-endian byte order *)

Module BigEndian.

(** [PutUint32]: [b[0] = byte(v >> 24)] down to [b[3] = byte(v)]. *)
Definition PutUint32 (v : Z) : list byte :=
  [ byte_of_Z (Z.shiftr v 24); byte_of_Z (Z.shiftr v 16);
    byte_of_Z (Z.shiftr v 8); byte_of_Z v ].

(** [PutUint64]: [b[0] = byte(v >> 56)] down to [b[7] = byte(v)]. *)
Definition PutUint64 (v : Z) : list byte :=
  [ byte_of_Z (Z.shiftr v 56); byte_of_Z (Z.shiftr v 48);
    byte_of_Z (Z.shiftr v 40); byte_of_Z (Z.shiftr v 32);
    byte_of_Z (Z.shiftr v 24); byte_of_Z (Z.shiftr v 16);
    byte_of_Z (Z.shiftr v 8); byte_of_Z v ].

(** The unsigned number a big-endian byte sequence stands for
    ([Uint32] and [Uint64] on four and eight bytes). *)
Definition Uint (bs : list byte) : Z :=
  fold_left (fun acc b => acc * 256 + Z_of_byte b) bs 0.

End BigEndian.

(** ** [bytes.Buffer] *)

Module Buffer.

Definition t : Type := list byte.

(** The zero value, [var buf bytes.Buffer]. *)
Definition empty : t := [].

Definition Write (buf : t) (p : list byte) : t := buf ++ p.

Definition Bytes (buf : t) : list byte := buf.

End Buffer.

(** The fixed-size values the source hands to [binary.Write]. *)
Inductive fixed : Type :=
| U8 (v : Z)
| U32 (v : Z)
| U64 (v : Z).

(** [binary.Write(&buf, binary.BigEndian, data)]: the value's bytes in
    big-endian order are written to the buffer.  On a fixed-size value and a
    [bytes.Buffer] the call returns no error (the source drops the result). *)
Definition binary_Write (buf : Buffer.t) (data : fixed) : Buffer.t :=
  match data with
  | U8 v => Buffer.Write buf [byte_of_Z v]
  | U32 v => Buffer.Write buf (BigEndian.PutUint32 v)
  | U64 v => Buffer.Write buf (BigEndian.PutUint64 v)
  end.

(** ** [encoding/hex] *)

Module hex.

Definition hextable : string := "0123456789abcdef".

Definition digit (n : Z) : ascii :=
  match String.get (Z.to_nat n) hextable with
  | Some c => c
  | None => "0"%char
  end.

(** [EncodeToString]: for each byte [v], [hextable[v>>4]] then
    [hextable[v&0x0f]]. *)
Fixpoint EncodeToString (src : list byte) : string :=
  match src with
  | [] => EmptyString
  | v :: rest =>
      String (digit (Z.shiftr (Z_of_byte v) 4))
        (String (digit (Z.land (Z_of_byte v) 15)) (EncodeToString rest))
  end.

(** The value of a hexadecimal digit, as [hex.DecodeString] reads it. *)
Definition fromHexChar (c : ascii) : option Z :=
  let n := Z.of_nat (nat_of_ascii c) in
  if (48 <=? n) && (n <=? 57) then Some (n - 48)
  else if (97 <=? n) && (n <=? 102) then Some (n - 97 + 10)
  else if (65 <=? n) && (n <=? 70) then Some (n - 65 + 10)
  else None.

Fixpoint DecodeString (s : string) : option (list byte) :=
  match s with
  | EmptyString => Some []
  | String a (String b rest) =>
      match fromHexChar a, fromHexChar b, DecodeString rest with
      | Some x, Some y, Some bs => Some (byte_of_Z (Z.lor (Z.shiftl x 4) y) :: bs)
      | _, _, _ => None
      end
  | String _ EmptyString => None
  end.

(** A lowercase hexadecimal digit. *)
Definition is_lower_hex (c : ascii) : bool :=
  let n := Z.of_nat (nat_of_ascii c) in
  ((48 <=? n) && (n <=? 57)) || ((97 <=? n) && (n <=? 102)).

(** A string of lowercase hexadecimal digits. *)
Fixpoint all_lower_hex (s : string) : bool :=
  match s with
  | EmptyString => true
  | String c rest => is_lower_hex c && all_lower_hex rest
  end.

End hex.

(** ** [crypto/sha256] (FIPS 180-4) on 32-bit words *)

Module sha256.

Definition add32 (x y : Z) : Z := uint32 (x + y).

(** [bits.RotateLeft32(x, -n)]. *)
Definition rotr (n x : Z) : Z :=
  Z.lor (Z.shiftr x n) (uint32 (Z.shiftl x (32 - n))).

(** [^x] on a [uint32]. *)
Definition not32 (x : Z) : Z := Z.lxor x 4294967295.

(** The tables of the package hold the constants of FIPS 180-4, which are
    defined from the first primes: [_K] is the first 32 bits of the
    fractional parts of the cube roots of the first sixty-four, and the
    initial chaining value those of the square roots of the first eight. *)
Definition prime (n : Z) : bool :=
  forallb (fun d => negb (n mod Z.of_nat d =? 0)) (seq 2 (Z.to_nat n - 2)).

Definition primes : list Z :=
  filter prime (map Z.of_nat (seq 2 310)).

(** The integer cube root of [x], from bit [n - 1] downwards. *)
Fixpoint cbrt (n : nat) (x r : Z) : Z :=
  match n with
  | O => r
  | S n' =>
      let c := Z.lor r (Z.shiftl 1 (Z.of_nat n')) in
      if c * c * c <=? x then cbrt n' x c else cbrt n' x r
  end.

Definition _K : list Z :=
  map (fun p => uint32 (cbrt 40 (p * 2 ^ 96) 0)) primes.

Definition frac_sqrt (p : Z) : Z := uint32 (Z.sqrt (p * 2 ^ 64)).

(** The chaining value [h[0..7]] of the digest. *)
Record state : Type := mkState {
  h0 : Z; h1 : Z; h2 : Z; h3 : Z; h4 : Z; h5 : Z; h6 : Z; h7 : Z
}.

Definition init : state :=
  mkState (frac_sqrt 2) (frac_sqrt 3) (frac_sqrt 5) (frac_sqrt 7)
          (frac_sqrt 11) (frac_sqrt 13) (frac_sqrt 17) (frac_sqrt 19).

(** The first sixteen words of the schedule: the block read as
    big-endian 32-bit words. *)
Fixpoint words (n : nat) (p : list byte) : list Z :=
  match n with
  | O => []
  | S n' => BigEndian.Uint (firstn 4 p) :: words n' (skipn 4 p)
  end.

Definition sigma0 (x : Z) : Z :=
  Z.lxor (Z.lxor (rotr 7 x) (rotr 18 x)) (Z.shiftr x 3).
Definition sigma1 (x : Z) : Z :=
  Z.lxor (Z.lxor (rotr 17 x) (rotr 19 x)) (Z.shiftr x 10).

(** [w[i] = t1 + w[i-7] + t2 + w[i-16]] for the next [n] indices. *)
Fixpoint extend (n : nat) (w : list Z) : list Z :=
  match n with
  | O => w
  | S n' =>
      let i := List.length w in
      let v1 := nth (i - 2)%nat w 0 in
      let v2 := nth (i - 15)%nat w 0 in
      let wi := add32 (add32 (add32 (sigma1 v1) (nth (i - 7)%nat w 0)) (sigma0 v2))
                      (nth (i - 16)%nat w 0) in
      extend n' (w ++ [wi])
  end.

(** One round on the working variables [a .. h]. *)
Definition round (s : state) (kw : Z * Z) : state :=
  let '(mkState a b c d e f g h) := s in
  let t1 := add32 (add32 (add32 (add32 h
              (Z.lxor (Z.lxor (rotr 6 e) (rotr 11 e)) (rotr 25 e)))
              (Z.lxor (Z.land e f) (Z.land (not32 e) g)))
              (fst kw)) (snd kw) in
  let t2 := add32 (Z.lxor (Z.lxor (rotr 2 a) (rotr 13 a)) (rotr 22 a))
                  (Z.lxor (Z.lxor (Z.land a b) (Z.land a c)) (Z.land b c)) in
  mkState (add32 t1 t2) a b c (add32 d t1) e f g.

(** [block] on one 64-byte chunk. *)
Definition block1 (s : state) (p : list byte) : state :=
  let w := extend 48 (words 16 p) in
  let r := fold_left round (combine _K w) s in
  mkState (add32 (h0 s) (h0 r)) (add32 (h1 s) (h1 r))
          (add32 (h2 s) (h2 r)) (add32 (h3 s) (h3 r))
          (add32 (h4 s) (h4 r)) (add32 (h5 s) (h5 r))
          (add32 (h6 s) (h6 r)) (add32 (h7 s) (h7 r)).

(** [block] on [n] consecutive chunks. *)
Fixpoint block (n : nat) (s : state) (p : list byte) : state :=
  match n with
  | O => s
  | S n' => block n' (block1 s (firstn 64 p)) (skipn 64 p)
  end.

(** The padding of [checkSum]: [0x80], zeros up to 56 modulo 64, then
    the length in bits as a [uint64]. *)
Definition padding (l : Z) : list byte :=
  let r := l mod 64 in
  let zeros := if r <? 56 then 56 - r - 1 else 64 + 56 - r - 1 in
  x80 :: repeat x00 (Z.to_nat zeros) ++ BigEndian.PutUint64 (uint64 (Z.shiftl l 3)).

(** [sha256.Sum256]. *)
Definition Sum256 (data : list byte) : list byte :=
  let p := data ++ padding (len data) in
  let s := block (List.length p / 64)%nat init p in
  BigEndian.PutUint32 (h0 s) ++ BigEndian.PutUint32 (h1 s) ++
  BigEndian.PutUint32 (h2 s) ++ BigEndian.PutUint32 (h3 s) ++
  BigEndian.PutUint32 (h4 s) ++ BigEndian.PutUint32 (h5 s) ++
  BigEndian.PutUint32 (h6 s) ++ BigEndian.PutUint32 (h7 s).

(** The [hash.Hash] that [sha256.New] returns, as the bytes written to it
    so far. *)
Record digest : Type := mkDigest { written : list byte }.

Definition New : digest := mkDigest [].

Definition Write (d : digest) (p : list byte) : digest :=
  mkDigest (written d ++ p).

(** [Sum(b)] appends the hash of what was written to [b]. *)
Definition Sum (d : digest) (b : list byte) : list byte :=
  b ++ Sum256 (written d).

End sha256.

(** ** Package [factom]: entries and chains *)

(** Modelled from the spec: the helper [sha] that [GenerateID] calls is
    declared in another file of the package, which is not among the sources
    at hand.  Section 4.3 of the specification says that the digest of each
    name segment and of their concatenation is SHA-256, so [sha] is the
    SHA-256 digest of its argument. *)
Definition sha (data : list byte) : list byte := sha256.Sum256 data.

Module Entry.

(** [type Entry struct]. *)
Record t : Type := mk {
  ChainID : list byte;
  ExtIDs : list (list byte);
  Data : list byte
}.

(** [func (e *Entry) MarshalBinary() []byte]. *)
Definition MarshalBinary (e : t) : list byte :=
  let buf := Buffer.empty in
  let buf := Buffer.Write buf [byte_of_Z (len (ChainID e))] in
  let buf := Buffer.Write buf (ChainID e) in
  let count := len (ExtIDs e) in
  let buf := binary_Write buf (U8 (uint8 count)) in
  let buf :=
    fold_left
      (fun buf bytes =>
         let count := len bytes in
         let buf := binary_Write buf (U32 (uint32 count)) in
         Buffer.Write buf bytes)
      (ExtIDs e) buf in
  let buf := Buffer.Write buf (Data e) in
  Buffer.Bytes buf.

(** [func (e *Entry) Hash() string]. *)
Definition Hash (e : t) : string :=
  let s := sha256.New in
  let s := sha256.Write s (MarshalBinary e) in
  hex.EncodeToString (sha256.Sum s []).

(** [func (e *Entry) Hex() string]. *)
Definition Hex (e : t) : string :=
  hex.EncodeToString (MarshalBinary e).

End Entry.

Module Chain.

(** [type Chain struct]; [FirstEntry] is a pointer and may be nil. *)
Record t : Type := mk {
  ChainID : list byte;
  Name : list (list byte);
  FirstEntry : option Entry.t
}.

(** [func (c *Chain) GenerateID() string]: the string returned and the
    chain after the assignment to [c.ChainID]. *)
Definition GenerateID (c : t) : string * t :=
  let b : list byte := [] in
  let b :=
    fold_left
      (fun b v => fold_left (fun b w => b ++ [w]) (sha v) b)
      (Name c) b in
  let c := mk (sha b) (Name c) (FirstEntry c) in
  (hex.EncodeToString (ChainID c), c).

(** [func (c *Chain) Hash() string]. *)
Definition Hash (c : t) : string := "abcdefg".

(** [func (c *Chain) MarshalBinary() []byte]. *)
Definition MarshalBinary (c : t) : list byte :=
  let buf := Buffer.empty in
  let buf := Buffer.Write buf (ChainID c) in
  let count := len (Name c) in
  let buf := binary_Write buf (U64 (uint64 count)) in
  let buf :=
    fold_left
      (fun buf bytes =>
         let count := len bytes in
         let buf := binary_Write buf (U64 (uint64 count)) in
         Buffer.Write buf bytes)
      (Name c) buf in
  Buffer.Bytes buf.

(** [func (c *Chain) Hex() string]. *)
Definition Hex (c : t) : string :=
  hex.EncodeToString (MarshalBinary c).

End Chain.

(** ** The entry layout in the words of the specification

    Section 4.2 lists the five parts of an encoded entry; section 8 asks that
    reading them back recovers the entry.  The definitions below follow those
    words and are compared with [Entry.MarshalBinary] further down. *)

Module Layout.

(** The byte [b] is equal to the number [n]. *)
Definition byte_is (b : byte) (n : Z) : Prop := Z_of_byte b = n.

(** [bs] is a 4-byte big-endian length equal to [n]. *)
Definition be32_is (bs : list byte) (n : Z) : Prop :=
  List.length bs = 4%nat /\ BigEndian.Uint bs = n.

(** [bs] is an 8-byte big-endian number equal to [n]. *)
Definition be64_is (bs : list byte) (n : Z) : Prop :=
  List.length bs = 8%nat /\ BigEndian.Uint bs = n.

(** [out] is, for each item in order, a length field followed by the
    item's raw bytes. *)
Inductive items (field : list byte -> Z -> Prop) :
  list (list byte) -> list byte -> Prop :=
| items_nil : items field [] []
| items_cons x xs l out :
    field l (len x) -> items field xs out ->
    items field (x :: xs) (l ++ x ++ out).

(** For each item in order, the length field that [put] writes for its
    length, followed by the item's raw bytes. *)
Definition prefixed (put : Z -> list byte) (l : list (list byte)) : list byte :=
  flat_map (fun x => put (len x) ++ x) l.

(** The five parts of section 4.2, in order. *)
Definition entry (e : Entry.t) (out : list byte) : Prop :=
  exists b c exts,
    byte_is b (len (Entry.ChainID e)) /\
    byte_is c (len (Entry.ExtIDs e)) /\
    items be32_is (Entry.ExtIDs e) exts /\
    out = [b] ++ Entry.ChainID e ++ [c] ++ exts ++ Entry.Data e.

(** The same five parts, each length field holding the length reduced
    to the width of the field: modulo [2^8] in the one-byte fields and
    modulo [2^32] in the four-byte fields. *)
Definition entry_wrapped (e : Entry.t) (out : list byte) : Prop :=
  exists b c exts,
    byte_is b (len (Entry.ChainID e) mod 2 ^ 8) /\
    byte_is c (len (Entry.ExtIDs e) mod 2 ^ 8) /\
    items (fun l n => be32_is l (n mod 2 ^ 32)) (Entry.ExtIDs e) exts /\
    out = [b] ++ Entry.ChainID e ++ [c] ++ exts ++ Entry.Data e.

(** The limits of section 3 on an entry. *)
Definition within_limits (e : Entry.t) : Prop :=
  len (Entry.ChainID e) <= 255 /\
  len (Entry.ExtIDs e) <= 255 /\
  Forall (fun x => len x < 2 ^ 32) (Entry.ExtIDs e).

(** The three parts of a chain's encoding in section 4.3. *)
Definition chain (c : Chain.t) (out : list byte) : Prop :=
  exists n segs,
    be64_is n (len (Chain.Name c)) /\
    items be64_is (Chain.Name c) segs /\
    out = Chain.ChainID c ++ n ++ segs.

(** Reading [count] external ids: a 4-byte big-endian length and that
    many bytes, each; what is left over is returned with them. *)
Fixpoint read_extids (count : nat) (bs : list byte)
  : option (list (list byte) * list byte) :=
  match count with
  | O => Some ([], bs)
  | S count' =>
      if (List.length bs <? 4)%nat then None
      else
        let n := Z.to_nat (BigEndian.Uint (firstn 4 bs)) in
        let bs := skipn 4 bs in
        if (List.length bs <? n)%nat then None
        else
          match read_extids count' (skipn n bs) with
          | Some (xs, rest) => Some (firstn n bs :: xs, rest)
          | None => None
          end
  end.

(** The inverse of the layout: one-byte chain-id length, that many
    bytes, one-byte count, the external ids, and the remainder as data. *)
Definition decode (bs : list byte) : option Entry.t :=
  match bs with
  | [] => None
  | b :: bs =>
      let n := Z.to_nat (Z_of_byte b) in
      if (List.length bs <? n)%nat then None
      else
        match skipn n bs with
        | [] => None
        | c :: rest =>
            match read_extids (Z.to_nat (Z_of_byte c)) rest with
            | Some (xs, data) => Some (Entry.mk (firstn n bs) xs data)
            | None => None
            end
        end
  end.

End Layout.

(** ** [encoding/json], as far as [mapToObject] uses it *)

Module json.

(** A JSON value: what [json.Unmarshal] stores into an [interface{}] and
    what [json.Marshal] renders from it.  A number is kept as the literal
    [json.Marshal] writes for it, an object as its members in the order
    they are written. *)
#[local] Unset Elimination Schemes.
Inductive value : Type :=
| Null
| Bool (b : bool)
| Number (literal : string)
| Str (s : string)
| Array (items : list value)
| Object (members : list (string * value)).
#[local] Set Elimination Schemes.

(** [json.Marshal] on a value that was itself decoded from JSON: every
    such value has a rendering, and the error result is nil. *)
Definition Marshal (v : value) : value * option string := (v, None).

Definition digit_val (c : ascii) : option Z :=
  let n := Z.of_nat (nat_of_ascii c) in
  if (48 <=? n) && (n <=? 57) then Some (n - 48) else None.

Fixpoint digits (s : string) (acc : Z) : option Z :=
  match s with
  | EmptyString => Some acc
  | String c s' =>
      match digit_val c with
      | Some d => digits s' (acc * 10 + d)
      | None => None
      end
  end.

(** [strconv.ParseUint(s, 10, 64)]: decimal digits only, at least one,
    and a value below [2^64]. *)
Definition ParseUint (s : string) : option Z :=
  match s with
  | EmptyString => None
  | _ =>
      match digits s 0 with
      | Some n => if n <? 2 ^ 64 then Some n else None
      | None => None
      end
  end.

Definition lower (c : ascii) : ascii :=
  let n := nat_of_ascii c in
  if ((65 <=? n) && (n <=? 90))%nat then ascii_of_nat (n + 32) else c.

(** Case folding of a member name.  Besides the ASCII letters, the two
    runes outside ASCII that fold to an ASCII letter are handled: the long
    s (bytes [C5 BF]) and the Kelvin sign (bytes [E2 84 AA]). *)
Fixpoint foldName (s : string) : string :=
  match s with
  | EmptyString => EmptyString
  | String c rest =>
      match rest with
      | EmptyString => String (lower c) EmptyString
      | String d rest1 =>
          if Ascii.eqb c "197" && Ascii.eqb d "191"
          then String "s" (foldName rest1)
          else
            match rest1 with
            | EmptyString => String (lower c) (foldName rest)
            | String e rest2 =>
                if Ascii.eqb c "226" && Ascii.eqb d "132" && Ascii.eqb e "170"
                then String "k" (foldName rest2)
                else String (lower c) (foldName rest)
            end
      end
  end.

(** A field of a destination struct: its JSON name and how a value is
    stored into it ([None] when the value has the wrong type). *)
Record field (A : Type) : Type := mkField {
  fname : string;
  fstore : A -> value -> option A
}.
Arguments mkField {A} _ _.
Arguments fname {A} _.
Arguments fstore {A} _ _ _.

(** The field a member name selects: an exact match if there is one,
    else a match up to case folding. *)
Definition find_field {A : Type} (fields : list (field A)) (key : string)
  : option (field A) :=
  match find (fun f => String.eqb (fname f) key) fields with
  | Some f => Some f
  | None => find (fun f => String.eqb (foldName (fname f)) (foldName key)) fields
  end.

(** Storing into a [string]: a JSON string is stored, null changes
    nothing, anything else is a type error. *)
Definition into_string (old : string) (v : value) : option string :=
  match v with
  | Null => Some old
  | Str s => Some s
  | _ => None
  end.

(** Storing into a [uint64]. *)
Definition into_uint64 (old : Z) (v : value) : option Z :=
  match v with
  | Null => Some old
  | Number lit => ParseUint lit
  | _ => None
  end.

(** Storing into a struct: null changes nothing; of an object, each
    member that selects a field is stored into it and the other members
    are skipped; anything else is a type error. *)
Definition into_struct {A : Type} (fields : list (field A)) (old : A) (v : value)
  : option A :=
  match v with
  | Null => Some old
  | Object members =>
      fold_left
        (fun acc kv =>
           match acc with
           | None => None
           | Some d =>
               match find_field fields (fst kv) with
               | Some f => fstore f d (snd kv)
               | None => Some d
               end
           end)
        members (Some old)
  | _ => None
  end.

Fixpoint traverse {A : Type} (f : value -> option A) (l : list value)
  : option (list A) :=
  match l with
  | [] => Some []
  | v :: l' =>
      match f v, traverse f l' with
      | Some a, Some r => Some (a :: r)
      | _, _ => None
      end
  end.

(** Storing into a slice that is nil before the call: null leaves it
    nil, an array stores each item into a fresh element. *)
Definition into_slice {A : Type} (elem : value -> option A) (v : value)
  : option (list A) :=
  match v with
  | Null => Some []
  | Array items => traverse elem items
  | _ => None
  end.

(** A type [json.Unmarshal] can fill: its zero value ([new(T)]) and its
    fields. *)
Class Struct (A : Type) : Type := {
  zero : A;
  fields : list (field A)
}.

(** [json.Unmarshal(data, dst)]: the destination as filled, or the error. *)
Definition Unmarshal {A : Type} `{Struct A} (data : value) (dst : A)
  : A + string :=
  match into_struct fields dst data with
  | Some d => inl d
  | None => inr "json: cannot unmarshal value into Go value"%string
  end.

End json.

(** ** Package [wsapi]: the wallet's JSON-RPC interface *)

Module wsapi.

Import json.

(** A Go [error], by its message. *)
Definition error : Type := string.

(** A result paired with an error, [(T, error)]. *)
Inductive result (A : Type) : Type :=
| Ok (a : A)
| Err (e : error).
Arguments Ok {A} _.
Arguments Err {A} _.

(** Modelled from the spec: the address kinds of [factom.AddressStringType]
    (section 4.4); their declaration is not among the sources at hand.  The
    four names the handlers switch on are the source's; [InvalidAddress]
    stands for the unrecognized kind. *)
Inductive addressStringType : Type :=
| InvalidAddress
| FactoidPub
| FactoidSec
| ECPub
| ECSec.

(** The two address types of package [factom], as far as the handlers
    observe them: their public and secret renderings. *)
Record ECAddress : Type := mkEC { ecPub : string; ecSec : string }.
Record FactoidAddress : Type := mkFCT { fctPub : string; fctSec : string }.

(** [type addressResponder interface]. *)
Class addressResponder (A : Type) : Type := {
  PubString : A -> string;
  SecString : A -> string
}.

#[export] Instance ECAddress_responder : addressResponder ECAddress :=
  {| PubString := ecPub; SecString := ecSec |}.
#[export] Instance FactoidAddress_responder : addressResponder FactoidAddress :=
  {| PubString := fctPub; SecString := fctSec |}.

(** *** Requests and responses *)

(** Modelled from the spec: the parameter shapes of section 4.1,
    [address{address}], [transactionRequest{name}],
    [transactionValueRequest{name, address, amount}],
    [transactionAddressRequest{name, address}] and
    [importRequest{addresses: [{secret}]}].  The structs are declared in
    another file of package [wsapi]; the handlers below read the fields
    [Address], [Name], [Amount], [Addresses] and [Secret].  (The request
    structs at the top of the source belong to package [factom]: its
    [addressRequest] has the same field and tag, its [transactionRequest]
    holds a [Transaction] and is not the one the handlers fill.)  Record
    fields share one name space here, so the fields of the later structs
    carry a letter before the name they have in the source. *)
Record addressRequest : Type := { Address : string }.
Record transactionRequest : Type := { Name : string }.
Record transactionValueRequest : Type :=
  { vName : string; vAddress : string; vAmount : Z }.
Record transactionAddressRequest : Type :=
  { aName : string; aAddress : string }.
Record importAddress : Type := { Secret : string }.
Record importRequest : Type := { Addresses : list importAddress }.

#[export] Instance addressRequest_struct : Struct addressRequest := {|
  zero := {| Address := "" |};
  fields :=
    [ mkField "address"
        (fun r v => option_map (fun s => {| Address := s |})
                      (into_string (Address r) v)) ]
|}.

#[export] Instance transactionRequest_struct : Struct transactionRequest := {|
  zero := {| Name := "" |};
  fields :=
    [ mkField "name"
        (fun r v => option_map (fun s => {| Name := s |})
                      (into_string (Name r) v)) ]
|}.

#[export] Instance transactionValueRequest_struct
  : Struct transactionValueRequest := {|
  zero := {| vName := ""; vAddress := ""; vAmount := 0 |};
  fields :=
    [ mkField "name"
        (fun r v =>
           option_map
             (fun s => {| vName := s; vAddress := vAddress r; vAmount := vAmount r |})
             (into_string (vName r) v));
      mkField "address"
        (fun r v =>
           option_map
             (fun s => {| vName := vName r; vAddress := s; vAmount := vAmount r |})
             (into_string (vAddress r) v));
      mkField "amount"
        (fun r v =>
           option_map
             (fun n => {| vName := vName r; vAddress := vAddress r; vAmount := n |})
             (into_uint64 (vAmount r) v)) ]
|}.

#[export] Instance transactionAddressRequest_struct
  : Struct transactionAddressRequest := {|
  zero := {| aName := ""; aAddress := "" |};
  fields :=
    [ mkField "name"
        (fun r v => option_map (fun s => {| aName := s; aAddress := aAddress r |})
                      (into_string (aName r) v));
      mkField "address"
        (fun r v => option_map (fun s => {| aName := aName r; aAddress := s |})
                      (into_string (aAddress r) v)) ]
|}.

#[export] Instance importAddress_struct : Struct importAddress := {|
  zero := {| Secret := "" |};
  fields :=
    [ mkField "secret"
        (fun r v => option_map (fun s => {| Secret := s |})
                      (into_string (Secret r) v)) ]
|}.

#[export] Instance importRequest_struct : Struct importRequest := {|
  zero := {| Addresses := [] |};
  fields :=
    [ mkField "addresses"
        (fun r v =>
           option_map (fun l => {| Addresses := l |})
             (into_slice (into_struct fields zero) v)) ]
|}.

(** The response structs; the handlers assign [Public], [Secret],
    [Addresses] and [Seed]. *)
Record addressResponse : Type := { Public : string; rSecret : string }.
Record multiAddressResponse : Type :=
  { mAddresses : list addressResponse }.
Record walletBackupResponse : Type :=
  { Seed : string; bAddresses : list addressResponse }.

(** What a handler returns in its [interface{}] result. *)
Inductive payload : Type :=
| PAddress (r : addressResponse)
| PMulti (r : multiAddressResponse)
| PBackup (r : walletBackupResponse)
| PString (s : string)
| PTransaction (t : value).

(** Modelled from the spec: the error kinds of section 4.5.  Their
    constructors ([newInvalidRequestError] and the like) are declared in
    another file of the package; the internal error carries the underlying
    message as its data. *)
Inductive JSONError : Type :=
| InvalidRequest
| MethodNotFound
| InvalidParams
| InternalError (data : string).

Definition newInvalidRequestError : JSONError := InvalidRequest.
Definition newMethodNotFoundError : JSONError := MethodNotFound.
Definition newInvalidParamsError : JSONError := InvalidParams.
Definition newCustomInternalError (data : string) : JSONError :=
  InternalError data.

(** [factom.JSON2Request] and [factom.JSON2Response], with the fields the
    dispatcher reads and assigns. *)
Record JSON2Request : Type := {
  Method : string;
  Params : value;
  ID : value
}.

Record JSON2Response : Type := {
  rID : value;
  Result : option payload;
  Error : option JSONError
}.

(** [factom.NewJSON2Response()]. *)
Definition NewJSON2Response : JSON2Response :=
  {| rID := Null; Result := None; Error := None |}.

(** *** The wallet and the other collaborators

    The handlers drive the process-wide wallet [fctWallet], package
    [factom] and the request context.  Their code is outside this file,
    so a handler is a program that stops at each such call and goes on
    with whatever the call returns. *)

(** Functions of package [factom]. *)
Inductive factomCall : Type -> Type :=
| AddressStringType (s : string) : factomCall addressStringType
| GetFactoidAddress (secret : string) : factomCall (result FactoidAddress)
| GetECAddress (secret : string) : factomCall (result ECAddress)
| GetRate : factomCall (result Z)
| ParseJSON2Request (body : string) : factomCall (result JSON2Request).

(** Methods of [fctWallet]; [option error] is a lone [error] result. *)
Inductive walletCall : Type -> Type :=
| WGetECAddress (a : string) : walletCall (result ECAddress)
| WGetFCTAddress (a : string) : walletCall (result FactoidAddress)
| WGetAllAddresses : walletCall (result (list FactoidAddress * list ECAddress))
| WGenerateFCTAddress : walletCall (result FactoidAddress)
| WGenerateECAddress : walletCall (result ECAddress)
| WPutFCTAddress (f : FactoidAddress) : walletCall (option error)
| WPutECAddress (e : ECAddress) : walletCall (option error)
| WGetSeed : walletCall (result string)
| WNewTransaction (name : string) : walletCall (option error)
| WDeleteTransaction (name : string) : walletCall (option error)
| WAddInput (name address : string) (amount : Z) : walletCall (option error)
| WAddOutput (name address : string) (amount : Z) : walletCall (option error)
| WAddECOutput (name address : string) (amount : Z) : walletCall (option error)
| WAddFee (name address : string) (rate : Z) : walletCall (option error)
| WSubFee (name address : string) (rate : Z) : walletCall (option error)
| WSignTransaction (name : string) : walletCall (option error)
| WComposeTransaction (name : string) : walletCall (result value).

(** The request context: [ioutil.ReadAll(ctx.Request.Body)]. *)
Inductive contextCall : Type -> Type :=
| ReadAll : contextCall (result string).

Inductive call (X : Type) : Type :=
| Factom (c : factomCall X)
| Wallet (c : walletCall X)
| Context (c : contextCall X).
Arguments Factom {X} _.
Arguments Wallet {X} _.
Arguments Context {X} _.

Inductive prog (A : Type) : Type :=
| Ret (a : A)
| Vis {X : Type} (c : call X) (k : X -> prog A).
Arguments Ret {A} _.
Arguments Vis {A X} _ _.

Fixpoint bind {A B : Type} (p : prog A) (f : A -> prog B) : prog B :=
  match p with
  | Ret a => f a
  | Vis c k => Vis c (fun x => bind (k x) f)
  end.

Declare Scope prog_scope.
Delimit Scope prog_scope with prog.
Notation "x <- 'factom' c ;; k" := (Vis (Factom c) (fun x => k))
  (at level 61, c at next level, right associativity) : prog_scope.
Notation "x <- 'fctWallet' c ;; k" := (Vis (Wallet c) (fun x => k))
  (at level 61, c at next level, right associativity) : prog_scope.
Notation "x <- 'ctx' c ;; k" := (Vis (Context c) (fun x => k))
  (at level 61, c at next level, right associativity) : prog_scope.
Notation "x <-- p ;; k" := (bind p (fun x => k))
  (at level 61, p at next level, right associativity) : prog_scope.
Local Open Scope prog_scope.

(** A collaborator answers each call from its state [W]. *)
Definition world (W : Type) : Type := forall X : Type, call X -> W -> X * W.

Fixpoint run {W A : Type} (h : world W) (p : prog A) (w : W) : A * W :=
  match p with
  | Ret a => (a, w)
  | Vis c k => let (x, w') := h _ c w in run h (k x) w'
  end.

(** The program returns at once, without any call. *)
Definition returns_at_once {A : Type} (p : prog A) : bool :=
  match p with
  | Ret _ => true
  | Vis _ _ => false
  end.

(** The first thing the program does is a call of the wallet. *)
Definition starts_with_wallet {A : Type} (p : prog A) : bool :=
  match p with
  | Vis (Wallet _) _ => true
  | _ => false
  end.

(** *** Utility functions *)

(** [func mkAddressResponse(a addressResponder) *addressResponse]. *)
Definition mkAddressResponse {A : Type} `{addressResponder A} (a : A)
  : addressResponse :=
  {| Public := PubString a; rSecret := SecString a |}.

(** [func mapToObject(source interface{}, dst interface{}) error]: the
    destination as filled, or the error. *)
Definition mapToObject {A : Type} `{Struct A} (source : value) (dst : A)
  : A + error :=
  let '(b, err) := json.Marshal source in
  match err with
  | Some err => inr err
  | None => json.Unmarshal b dst
  end.

(** What a handler returns: [(interface{}, *factom.JSONError)]. *)
Definition reply : Type := option payload * option JSONError.

(** *** Address handlers *)

Definition handleAddress (params : value) : prog reply :=
  match mapToObject params zero with
  | inr _ => Ret (None, Some newInvalidParamsError)
  | inl req =>
      t <- factom AddressStringType (Address req) ;;
      match t with
      | ECPub =>
          r <- fctWallet WGetECAddress (Address req) ;;
          match r with
          | Err err => Ret (None, Some (newCustomInternalError err))
          | Ok e => Ret (Some (PAddress (mkAddressResponse e)), None)
          end
      | FactoidPub =>
          r <- fctWallet WGetFCTAddress (Address req) ;;
          match r with
          | Err err => Ret (None, Some (newCustomInternalError err))
          | Ok f => Ret (Some (PAddress (mkAddressResponse f)), None)
          end
      | _ => Ret (None, Some (newCustomInternalError "Invalid address type"))
      end
  end.

(** The two [for ... range] loops that append the responses of the
    factoid and then of the entry-credit addresses. *)
Definition appendAddresses (l : list addressResponse)
  (fs : list FactoidAddress) (es : list ECAddress) : list addressResponse :=
  let l := fold_left (fun l f => l ++ [mkAddressResponse f]) fs l in
  fold_left (fun l e => l ++ [mkAddressResponse e]) es l.

Definition handleAllAddresses (params : value) : prog reply :=
  let resp := {| mAddresses := [] |} in
  r <- fctWallet WGetAllAddresses ;;
  match r with
  | Err err => Ret (None, Some (newCustomInternalError err))
  | Ok (fs, es) =>
      let resp := {| mAddresses := appendAddresses (mAddresses resp) fs es |} in
      Ret (Some (PMulti resp), None)
  end.

Definition handleGenerateFactoidAddress (params : value) : prog reply :=
  r <- fctWallet WGenerateFCTAddress ;;
  match r with
  | Err err => Ret (None, Some (newCustomInternalError err))
  | Ok a => Ret (Some (PAddress (mkAddressResponse a)), None)
  end.

Definition handleGenerateECAddress (params : value) : prog reply :=
  r <- fctWallet WGenerateECAddress ;;
  match r with
  | Err err => Ret (None, Some (newCustomInternalError err))
  | Ok a => Ret (Some (PAddress (mkAddressResponse a)), None)
  end.

(** The loop of [handleImportAddresses] over [req.Addresses]. *)
Fixpoint importAddresses (l : list importAddress) (resp : multiAddressResponse)
  : prog reply :=
  match l with
  | [] => Ret (Some (PMulti resp), None)
  | v :: rest =>
      t <- factom AddressStringType (Secret v) ;;
      match t with
      | FactoidSec =>
          r <- factom GetFactoidAddress (Secret v) ;;
          match r with
          | Err err => Ret (None, Some (newCustomInternalError err))
          | Ok f =>
              err <- fctWallet WPutFCTAddress f ;;
              match err with
              | Some err => Ret (None, Some (newCustomInternalError err))
              | None =>
                  importAddresses rest
                    {| mAddresses := mAddresses resp ++ [mkAddressResponse f] |}
              end
          end
      | ECSec =>
          r <- factom GetECAddress (Secret v) ;;
          match r with
          | Err err => Ret (None, Some (newCustomInternalError err))
          | Ok e =>
              err <- fctWallet WPutECAddress e ;;
              match err with
              | Some err => Ret (None, Some (newCustomInternalError err))
              | None =>
                  importAddresses rest
                    {| mAddresses := mAddresses resp ++ [mkAddressResponse e] |}
              end
          end
      | _ => Ret (None, Some (newCustomInternalError "address could not be imported"))
      end
  end.

Definition handleImportAddresses (params : value) : prog reply :=
  match mapToObject params zero with
  | inr _ => Ret (None, Some newInvalidParamsError)
  | inl req => importAddresses (Addresses req) {| mAddresses := [] |}
  end.

Definition handleWalletBackup (params : value) : prog reply :=
  let resp := {| Seed := ""; bAddresses := [] |} in
  s <- fctWallet WGetSeed ;;
  match s with
  | Err err => Ret (None, Some (newCustomInternalError err))
  | Ok seed =>
      let resp := {| Seed := seed; bAddresses := bAddresses resp |} in
      r <- fctWallet WGetAllAddresses ;;
      match r with
      | Err err => Ret (None, Some (newCustomInternalError err))
      | Ok (fs, es) =>
          let resp :=
            {| Seed := Seed resp;
               bAddresses := appendAddresses (bAddresses resp) fs es |} in
          Ret (Some (PBackup resp), None)
      end
  end.

(** *** Transaction handlers *)

(** The common end of the handlers that change a named transaction:
    an internal error when the wallet refuses, else ["success"]. *)
Definition success (err : option error) : prog reply :=
  match err with
  | Some err => Ret (None, Some (newCustomInternalError err))
  | None => Ret (Some (PString "success"), None)
  end.

Definition handleNewTransaction (params : value) : prog reply :=
  match mapToObject params zero with
  | inr _ => Ret (None, Some newInvalidParamsError)
  | inl req =>
      err <- fctWallet WNewTransaction (Name req) ;;
      success err
  end.

Definition handleDeleteTransaction (params : value) : prog reply :=
  match mapToObject params zero with
  | inr _ => Ret (None, Some newInvalidParamsError)
  | inl req =>
      err <- fctWallet WDeleteTransaction (Name req) ;;
      success err
  end.

Definition handleAddInput (params : value) : prog reply :=
  match mapToObject params zero with
  | inr _ => Ret (None, Some newInvalidParamsError)
  | inl req =>
      err <- fctWallet WAddInput (vName req) (vAddress req) (vAmount req) ;;
      success err
  end.

Definition handleAddOutput (params : value) : prog reply :=
  match mapToObject params zero with
  | inr _ => Ret (None, Some newInvalidParamsError)
  | inl req =>
      err <- fctWallet WAddOutput (vName req) (vAddress req) (vAmount req) ;;
      success err
  end.

Definition handleAddECOutput (params : value) : prog reply :=
  match mapToObject params zero with
  | inr _ => Ret (None, Some newInvalidParamsError)
  | inl req =>
      err <- fctWallet WAddECOutput (vName req) (vAddress req) (vAmount req) ;;
      success err
  end.

Definition handleAddFee (params : value) : prog reply :=
  match mapToObject params zero with
  | inr _ => Ret (None, Some newInvalidParamsError)
  | inl req =>
      r <- factom GetRate ;;
      match r with
      | Err err => Ret (None, Some (newCustomInternalError err))
      | Ok rate =>
          err <- fctWallet WAddFee (aName req) (aAddress req) rate ;;
          success err
      end
  end.

Definition handleSubFee (params : value) : prog reply :=
  match mapToObject params zero with
  | inr _ => Ret (None, Some newInvalidParamsError)
  | inl req =>
      r <- factom GetRate ;;
      match r with
      | Err err => Ret (None, Some (newCustomInternalError err))
      | Ok rate =>
          err <- fctWallet WSubFee (aName req) (aAddress req) rate ;;
          success err
      end
  end.

Definition handleSignTransaction (params : value) : prog reply :=
  match mapToObject params zero with
  | inr _ => Ret (None, Some newInvalidParamsError)
  | inl req =>
      err <- fctWallet WSignTransaction (Name req) ;;
      success err
  end.

Definition handleComposeTransaction (params : value) : prog reply :=
  match mapToObject params zero with
  | inr _ => Ret (None, Some newInvalidParamsError)
  | inl req =>
      r <- fctWallet WComposeTransaction (Name req) ;;
      match r with
      | Err err => Ret (None, Some (newCustomInternalError err))
      | Ok t => Ret (Some (PTransaction t), None)
      end
  end.

(** *** The dispatcher *)

(** The [switch j.Method] of [handleV2Request]: the handler of a method,
    or the method-not-found error of the [default] case. *)
Definition dispatch (method : string) (params : value) : prog reply :=
  if String.eqb method "address" then handleAddress params
  else if String.eqb method "all-addresses" then handleAllAddresses params
  else if String.eqb method "generate-ec-address" then handleGenerateECAddress params
  else if String.eqb method "generate-factoid-address"
    then handleGenerateFactoidAddress params
  else if String.eqb method "import-addresses" then handleImportAddresses params
  else if String.eqb method "wallet-backup" then handleWalletBackup params
  else if String.eqb method "new-transaction" then handleNewTransaction params
  else if String.eqb method "delete-transaction" then handleDeleteTransaction params
  else if String.eqb method "add-input" then handleAddInput params
  else if String.eqb method "add-output" then handleAddOutput params
  else if String.eqb method "add-ec-output" then handleAddECOutput params
  else if String.eqb method "add-fee" then handleAddFee params
  else if String.eqb method "sub-fee" then handleSubFee params
  else if String.eqb method "sign-transaction" then handleSignTransaction params
  else if String.eqb method "compose-transaction" then handleComposeTransaction params
  else Ret (None, Some newMethodNotFoundError).

(** [func handleV2Request(j *factom.JSON2Request)]: the response and the
    error it returns, one of them nil. *)
Definition handleV2Request (j : JSON2Request)
  : prog (option JSON2Response * option JSONError) :=
  let params := Params j in
  r <-- dispatch (Method j) params ;;
  let '(resp, jsonError) := r in
  match jsonError with
  | Some jsonError => Ret (None, Some jsonError)
  | None =>
      let jsonResp := NewJSON2Response in
      let jsonResp := {| rID := ID j; Result := Result jsonResp; Error := Error jsonResp |} in
      let jsonResp := {| rID := rID jsonResp; Result := resp; Error := Error jsonResp |} in
      Ret (Some jsonResp, None)
  end.

(** Modelled from the spec: [handleV2Error], which renders an error, is
    declared in another file of the package.  By sections 3 and 7 an error
    response carries the error, no result, and the identifier of the
    request echoed verbatim when one was parsed (none otherwise). *)
Definition handleV2Error (j : option JSON2Request) (err : JSONError)
  : JSON2Response :=
  {| rID := match j with Some j => ID j | None => Null end;
     Result := None;
     Error := Some err |}.

(** [handleV2] once the body is parsed into [j]: the response it writes to
    [ctx], the error response when [handleV2Request] returns an error and
    else the response it returns. *)
Definition respond (j : JSON2Request) : prog (option JSON2Response) :=
  r <-- handleV2Request j ;;
  let '(jsonResp, jsonError) := r in
  match jsonError with
  | Some jsonError => Ret (Some (handleV2Error (Some j) jsonError))
  | None => Ret jsonResp
  end.

(** [func handleV2(ctx)]: the response written to [ctx]. *)
Definition handleV2 : prog (option JSON2Response) :=
  body <- ctx ReadAll ;;
  match body with
  | Err _ => Ret (Some (handleV2Error None newInvalidRequestError))
  | Ok body =>
      j <- factom ParseJSON2Request body ;;
      match j with
      | Err _ => Ret (Some (handleV2Error None newInvalidRequestError))
      | Ok j => respond j
      end
  end.

(** *** What it takes for params to be accepted *)

(** [mapToObject] fills a fresh [A] from [params] without an error. *)
Definition bindable (A : Type) `{Struct A} (params : value) : bool :=
  match mapToObject params (zero : A) with
  | inl _ => true
  | inr _ => false
  end.

(** The params are accepted by the handler of the method: they fill the
    request struct it allocates.  A handler that allocates none accepts
    everything, and so does the [default] case. *)
Definition binds (method : string) (params : value) : bool :=
  if String.eqb method "address" then bindable addressRequest params
  else if String.eqb method "all-addresses" then true
  else if String.eqb method "generate-ec-address" then true
  else if String.eqb method "generate-factoid-address" then true
  else if String.eqb method "import-addresses" then bindable importRequest params
  else if String.eqb method "wallet-backup" then true
  else if String.eqb method "new-transaction" then bindable transactionRequest params
  else if String.eqb method "delete-transaction" then bindable transactionRequest params
  else if String.eqb method "add-input" then bindable transactionValueRequest params
  else if String.eqb method "add-output" then bindable transactionValueRequest params
  else if String.eqb method "add-ec-output" then bindable transactionValueRequest params
  else if String.eqb method "add-fee" then bindable transactionAddressRequest params
  else if String.eqb method "sub-fee" then bindable transactionAddressRequest params
  else if String.eqb method "sign-transaction" then bindable transactionRequest params
  else if String.eqb method "compose-transaction" then bindable transactionRequest params
  else true.

(** A value that may be stored into a [string] field. *)
Definition string_or_null (v : value) : bool :=
  match v with
  | Null | Str _ => true
  | _ => false
  end.

(** The shape of params that [addressRequest] accepts: null, or an object
    in which every member named [address], up to case folding, holds a
    string or null.  Members of any other name are not looked at. *)
Definition address_shape (params : value) : bool :=
  match params with
  | Null => true
  | Object members =>
      forallb
        (fun kv =>
           if String.eqb (foldName "address") (foldName (fst kv))
           then string_or_null (snd kv)
           else true)
        members
  | _ => false
  end.

(** The four methods whose handlers allocate no request struct. *)
Definition unchecked_methods : list string :=
  [ "generate-ec-address"; "generate-factoid-address"; "all-addresses";
    "wallet-backup" ]%string.

(** The fifteen method names of the [switch]. *)
Definition methods : list string :=
  [ "address"; "all-addresses"; "generate-ec-address";
    "generate-factoid-address"; "import-addresses"; "wallet-backup";
    "new-transaction"; "delete-transaction"; "add-input"; "add-output";
    "add-ec-output"; "add-fee"; "sub-fee"; "sign-transaction";
    "compose-transaction" ]%string.

End wsapi.

(** ** Inputs used in the examples below *)

Module Examples.

Import json wsapi.

(** The entry of the literal example in section 8. *)
Definition entry1 : Entry.t :=
  Entry.mk [x01; x02] [[x41; x42]] [x43].

(** An entry whose chain id is 256 bytes long. *)
Definition long_chainid : Entry.t :=
  Entry.mk (repeat x00 256) [] [].

(** An entry with 257 empty external ids. *)
Definition many_extids : Entry.t :=
  Entry.mk [] (repeat [] 257) [x07].

(** A chain named ["ab"], ["c"], with and without a first entry. *)
Definition chain1 : Chain.t :=
  Chain.mk [x09] [[x61; x62]; [x63]] None.
Definition chain1' : Chain.t :=
  Chain.mk [x09] [[x61; x62]; [x63]] (Some entry1).

(** [{"method":"bogus","params":{},"id":7}]. *)
Definition bogus : JSON2Request :=
  {| Method := "bogus"; Params := Object []; ID := Number "7" |}.

(** [{"method":"address","params":{"addr":"x"},"id":1}]. *)
Definition address_addr : JSON2Request :=
  {| Method := "address";
     Params := Object [("addr"%string, Str "x")];
     ID := Number "1" |}.

(** [{"method":"address","params":{"address":5},"id":1}]. *)
Definition address_number : JSON2Request :=
  {| Method := "address";
     Params := Object [("address"%string, Number "5")];
     ID := Number "1" |}.

(** A collaborator without state that recognizes no address and fails
    every call. *)
Definition refusing : world unit :=
  fun X c w =>
    match c with
    | Factom c =>
        match c in factomCall T return T * unit with
        | AddressStringType _ => (InvalidAddress, w)
        | GetFactoidAddress _ => (Err "refused", w)
        | GetECAddress _ => (Err "refused", w)
        | GetRate => (Err "refused", w)
        | ParseJSON2Request _ => (Err "refused", w)
        end
    | Wallet c =>
        match c in walletCall T return T * unit with
        | WGetECAddress _ => (Err "refused", w)
        | WGetFCTAddress _ => (Err "refused", w)
        | WGetAllAddresses => (Err "refused", w)
        | WGenerateFCTAddress => (Err "refused", w)
        | WGenerateECAddress => (Err "refused", w)
        | WPutFCTAddress _ => (Some "refused", w)
        | WPutECAddress _ => (Some "refused", w)
        | WGetSeed => (Err "refused", w)
        | WNewTransaction _ => (Some "refused", w)
        | WDeleteTransaction _ => (Some "refused", w)
        | WAddInput _ _ _ => (Some "refused", w)
        | WAddOutput _ _ _ => (Some "refused", w)
        | WAddECOutput _ _ _ => (Some "refused", w)
        | WAddFee _ _ _ => (Some "refused", w)
        | WSubFee _ _ _ => (Some "refused", w)
        | WSignTransaction _ => (Some "refused", w)
        | WComposeTransaction _ => (Err "refused", w)
        end
    | Context c =>
        match c in contextCall T return T * unit with
        | ReadAll => (Err "refused", w)
        end
    end%string.

End Examples.

(** ** Reading an encoded chain back

    [Chain.MarshalBinary] writes the chain id without a length, so a reader
    has to know how long it is; [GenerateID] always makes it 32 bytes. *)

Module ChainLayout.

(** Reading [count] name segments: an 8-byte big-endian length and that
    many bytes, each; what is left over is returned with them. *)
Fixpoint read_segments (count : nat) (bs : list byte)
  : option (list (list byte) * list byte) :=
  match count with
  | O => Some ([], bs)
  | S count' =>
      if (List.length bs <? 8)%nat then None
      else
        let n := Z.to_nat (BigEndian.Uint (firstn 8 bs)) in
        let bs := skipn 8 bs in
        if (List.length bs <? n)%nat then None
        else
          match read_segments count' (skipn n bs) with
          | Some (xs, rest) => Some (firstn n bs :: xs, rest)
          | None => None
          end
  end.

(** The chain id of [idlen] bytes, the 8-byte count, and the segments,
    with nothing left over. *)
Definition decode (idlen : nat) (bs : list byte)
  : option (list byte * list (list byte)) :=
  if (List.length bs <? idlen)%nat then None
  else
    let id := firstn idlen bs in
    let bs := skipn idlen bs in
    if (List.length bs <? 8)%nat then None
    else
      match read_segments (Z.to_nat (BigEndian.Uint (firstn 8 bs))) (skipn 8 bs) with
      | Some (segs, []) => Some (id, segs)
      | _ => None
      end.

End ChainLayout.

(** ** Entries and chains that are encoded alike *)

Module Ambiguity.

(** A 256-byte chain id of zeros before the data [d], and no chain id
    before 256 zeros and [d]. *)
Definition long_id (d : list byte) : Entry.t :=
  Entry.mk (repeat x00 256) [] d.
Definition long_data (d : list byte) : Entry.t :=
  Entry.mk [] [] (repeat x00 256 ++ d).

(** 256 empty external ids before the data [d], and no external id
    before 1024 zeros and [d]. *)
Definition many_ids (c d : list byte) : Entry.t :=
  Entry.mk c (repeat [] 256) d.
Definition no_ids (c d : list byte) : Entry.t :=
  Entry.mk c [] (repeat x00 1024 ++ d).

(** A chain with the one segment of eight zero bytes, and the chain
    without segments whose id is longer by the two numbers 1 and 8. *)
Definition one_segment (id : list byte) (first : option Entry.t) : Chain.t :=
  Chain.mk id [repeat x00 8] first.
Definition no_segment (id : list byte) (first : option Entry.t) : Chain.t :=
  Chain.mk (id ++ BigEndian.PutUint64 1 ++ BigEndian.PutUint64 8) [] first.

End Ambiguity.

(** ** What a handler does, call by call *)

Module Trace.

Import json wsapi.

(** A call together with what it returned. *)
Inductive event : Type :=
| Ev {X : Type} (c : call X) (x : X).

(** [exec p t a]: the program [p] can make the calls of [t], in this
    order and with these answers, and then return [a]. *)
Fixpoint exec {A : Type} (p : prog A) (t : list event) (a : A) : Prop :=
  match p with
  | Ret a' => t = [] /\ a' = a
  | Vis c k => exists x t', t = Ev c x :: t' /\ exec (k x) t' a
  end.

(** The calls that [run] makes against a collaborator, with the answers
    it gives. *)
Fixpoint trace {W A : Type} (h : world W) (p : prog A) (w : W) : list event :=
  match p with
  | Ret _ => []
  | Vis c k => let (x, w') := h _ c w in Ev c x :: trace h (k x) w'
  end.

Definition is_wallet (e : event) : bool :=
  match e with
  | Ev (Wallet _) _ => true
  | Ev _ _ => false
  end.

(** The number of calls of the wallet. *)
Definition wallet_calls (t : list event) : nat :=
  List.length (filter is_wallet t).

(** A call of the wallet other than [GetECAddress], [GetFCTAddress],
    [GetAllAddresses] and [GetSeed]. *)
Definition changes_wallet (e : event) : bool :=
  match e with
  | Ev (Wallet c) _ =>
      match c with
      | WGetECAddress _ | WGetFCTAddress _ | WGetAllAddresses | WGetSeed => false
      | _ => true
      end
  | Ev _ _ => false
  end.

(** [PutFCTAddress] or [PutECAddress] returned without an error. *)
Definition stored (e : event) : bool :=
  match e with
  | Ev (Wallet c) x =>
      match c in walletCall T return T -> bool with
      | WPutFCTAddress _ | WPutECAddress _ =>
          fun x => match x with None => true | Some _ => false end
      | _ => fun _ => false
      end x
  | Ev _ _ => false
  end.

(** The request that [handleV2] got out of the body: the answer of
    [ParseJSON2Request], if the trace reaches it and it is no error. *)
Definition parsed_by (e : event) : option JSON2Request :=
  match e with
  | Ev (Factom c) x =>
      match c in factomCall T return T -> option JSON2Request with
      | ParseJSON2Request _ =>
          fun x => match x with Ok j => Some j | Err _ => None end
      | _ => fun _ => None
      end x
  | Ev _ _ => None
  end.

Definition request_of (t : list event) : option JSON2Request :=
  match t with
  | _ :: e :: _ => parsed_by e
  | _ => None
  end.

(** An address that the import accepts: its secret, and the factoid or
    entry-credit address that the secret stands for. *)
Inductive imported : Type :=
| ImportedFCT (secret : string) (f : FactoidAddress)
| ImportedEC (secret : string) (e : ECAddress).

Definition secret_of (i : imported) : importAddress :=
  match i with
  | ImportedFCT s _ | ImportedEC s _ => {| Secret := s |}
  end.

Definition response_of (i : imported) : addressResponse :=
  match i with
  | ImportedFCT _ f => mkAddressResponse f
  | ImportedEC _ e => mkAddressResponse e
  end.

(** The three calls by which one address is imported without error. *)
Definition import_events (i : imported) : list event :=
  match i with
  | ImportedFCT s f =>
      [ Ev (Factom (AddressStringType s)) FactoidSec;
        Ev (Factom (GetFactoidAddress s)) (Ok f);
        Ev (Wallet (WPutFCTAddress f)) None ]
  | ImportedEC s e =>
      [ Ev (Factom (AddressStringType s)) ECSec;
        Ev (Factom (GetECAddress s)) (Ok e);
        Ev (Wallet (WPutECAddress e)) None ]
  end.

(** The error a call returned, if it returned one. *)
Definition failed {A : Type} (r : result A) : option error :=
  match r with
  | Err e => Some e
  | Ok _ => None
  end.

Definition failure (e : event) : option error :=
  match e with
  | Ev (Factom c) x =>
      match c in factomCall T return T -> option error with
      | AddressStringType _ => fun _ => None
      | GetFactoidAddress _ => fun x => failed x
      | GetECAddress _ => fun x => failed x
      | GetRate => fun x => failed x
      | ParseJSON2Request _ => fun x => failed x
      end x
  | Ev (Wallet c) x =>
      match c in walletCall T return T -> option error with
      | WGetECAddress _ => fun x => failed x
      | WGetFCTAddress _ => fun x => failed x
      | WGetAllAddresses => fun x => failed x
      | WGenerateFCTAddress => fun x => failed x
      | WGenerateECAddress => fun x => failed x
      | WPutFCTAddress _ => fun x => x
      | WPutECAddress _ => fun x => x
      | WGetSeed => fun x => failed x
      | WNewTransaction _ => fun x => x
      | WDeleteTransaction _ => fun x => x
      | WAddInput _ _ _ => fun x => x
      | WAddOutput _ _ _ => fun x => x
      | WAddECOutput _ _ _ => fun x => x
      | WAddFee _ _ _ => fun x => x
      | WSubFee _ _ _ => fun x => x
      | WSignTransaction _ => fun x => x
      | WComposeTransaction _ => fun x => failed x
      end x
  | Ev (Context c) x =>
      match c in contextCall T return T -> option error with
      | ReadAll => fun x => failed x
      end x
  end.

(** What a handler may answer: a result without an error or an error
    without a result; the invalid-params error exactly when the params are
    not [bound], and then without any call; never the errors of the
    dispatcher and of the parser. *)
Definition answered (bound : bool) (t : list event) (r : reply) : Prop :=
  ((exists p, r = (Some p, None)) \/ (exists e, r = (None, Some e))) /\
  (snd r = Some InvalidParams <-> bound = false) /\
  snd r <> Some MethodNotFound /\
  snd r <> Some InvalidRequest /\
  (snd r = Some InvalidParams -> t = []).

(** The handler stops at the first error: a call that returns an error
    is the last call, and the answer is the internal error with its
    message. *)
Definition fails_fast (t : list event) (r : reply) : Prop :=
  forall (t1 t2 : list event) (e : event) (msg : error),
    t = t1 ++ e :: t2 -> failure e = Some msg ->
    t2 = [] /\ r = (None, Some (InternalError msg)).

(** The methods that only look the wallet up. *)
Definition lookup_methods : list string :=
  [ "address"; "all-addresses"; "wallet-backup" ]%string.

(** No member of the object is named [name], up to case folding. *)
Definition lacks (name : string) (members : list (string * value)) : bool :=
  forallb
    (fun kv => negb (String.eqb (foldName name) (foldName (fst kv))))
    members.

(** No call of the trace changes the wallet. *)
Definition only_reads (t : list event) : bool :=
  forallb (fun e => negb (changes_wallet e)) t.

(** The params that spell a list of secrets out:
    [{"addresses":[{"secret":...},...]}]. *)
Definition import_params (l : list importAddress) : value :=
  Object
    [ ("addresses"%string,
       Array (map (fun v => Object [("secret"%string, Str (Secret v))]) l)) ].

End Trace.

(** ** A wallet for the examples *)

Module Stocked.

Import json wsapi.

Definition fct1 : FactoidAddress := mkFCT "FA1" "Fs1".
Definition ec1 : ECAddress := mkEC "EC1" "Es1".

(** The kind of an address by its first two letters. *)
Definition kind (s : string) : addressStringType :=
  if String.prefix "FA" s then FactoidPub
  else if String.prefix "Fs" s then FactoidSec
  else if String.prefix "EC" s then ECPub
  else if String.prefix "Es" s then ECSec
  else InvalidAddress.

(** A collaborator without state that holds one factoid and one
    entry-credit address and accepts every call. *)
Definition wallet : world unit :=
  fun X c w =>
    match c with
    | Factom c =>
        match c in factomCall T return T * unit with
        | AddressStringType s => (kind s, w)
        | GetFactoidAddress _ => (Ok fct1, w)
        | GetECAddress _ => (Ok ec1, w)
        | GetRate => (Ok 1000, w)
        | ParseJSON2Request _ => (Ok Examples.bogus, w)
        end
    | Wallet c =>
        match c in walletCall T return T * unit with
        | WGetECAddress _ => (Ok ec1, w)
        | WGetFCTAddress _ => (Ok fct1, w)
        | WGetAllAddresses => (Ok ([fct1], [ec1]), w)
        | WGenerateFCTAddress => (Ok fct1, w)
        | WGenerateECAddress => (Ok ec1, w)
        | WPutFCTAddress _ => (None, w)
        | WPutECAddress _ => (None, w)
        | WGetSeed => (Ok "seed", w)
        | WNewTransaction _ => (None, w)
        | WDeleteTransaction _ => (None, w)
        | WAddInput _ _ _ => (None, w)
        | WAddOutput _ _ _ => (None, w)
        | WAddECOutput _ _ _ => (None, w)
        | WAddFee _ _ _ => (None, w)
        | WSubFee _ _ _ => (None, w)
        | WSignTransaction _ => (None, w)
        | WComposeTransaction _ => (Ok Null, w)
        end
    | Context c =>
        match c in contextCall T return T * unit with
        | ReadAll => (Ok "body", w)
        end
    end%string.

End Stocked.

(** ** Proof automation for programs run against a collaborator *)

(** Replaces the program under [run] by its normal form. *)
Ltac evaluate :=
  match goal with
  | |- context [wsapi.run _ ?p _] =>
      let v := eval vm_compute in p in change p with v
  end.

(** Takes the answer of the collaborator [h] to the call at the head of
    the program under [run] apart. *)
Ltac answer h :=
  match goal with
  | |- context [h ?X ?c ?w] =>
      let r := fresh "r" in
      let w' := fresh "w" in
      destruct (h X c w) as [r w']; try destruct r; cbn
  end.

(** Takes an execution [H : exec p t a] of a program that starts with a
    call, a return or a case distinction apart, as far as it goes. *)
Ltac unfold_exec H :=
  cbn in H;
  lazymatch type of H with
  | exists _, _ =>
      let x := fresh "x" in
      let t := fresh "t" in
      let E := fresh "E" in
      destruct H as (x & t & E & H); subst; try destruct x; unfold_exec H
  | _ /\ _ =>
      let E := fresh "E" in
      let F := fresh "F" in
      destruct H as [E F]; subst
  | context [match ?v with _ => _ end] => destruct v; unfold_exec H
  | _ => idtac
  end.

(** Finds the place of an event in a trace that is written out:
    [Ht : t = t1 ++ e :: t2] with [Hf] a fact about [e]. *)
Ltac split_trace Ht Hf :=
  repeat match type of Ht with
         | [] = ?t1 ++ _ :: _ => destruct t1; discriminate Ht
         | _ :: _ = ?t1 ++ _ :: _ =>
             destruct t1 as [|? t1]; cbn in Ht;
             [ injection Ht as ? ?; subst; cbn in Hf; try discriminate Hf
             | injection Ht as ? Ht; subst ]
         end.

(** Settles what is to be shown of an execution that is written out. *)
Ltac conclude :=
  unfold Trace.answered, Trace.fails_fast; cbn;
  repeat match goal with
         | |- _ /\ _ => split
         | |- _ <-> _ => split
         end;
  try reflexivity; try discriminate;
  try (intros; reflexivity); try (intros; discriminate);
  try (intros; congruence);
  try (left; eexists; reflexivity); try (right; eexists; reflexivity);
  try (intros ? ? ? ? Ht Hf; split_trace Ht Hf;
       try (injection Hf as <-); split; reflexivity).

(** * Checks of the model against known values *)

(** The tables as the package spells them: the ends of [_K], its length,
    and the initial chaining value. *)
Example sha256_tables :
  List.length sha256._K = 64%nat /\
  firstn 2 sha256._K = [0x428a2f98; 0x71374491] /\
  skipn 62 sha256._K = [0xbef9a3f7; 0xc67178f2] /\
  sha256.h0 sha256.init = 0x6a09e667 /\ sha256.h7 sha256.init = 0x5be0cd19.
Proof. vm_compute. repeat split. Qed.

(** The digests of the empty message, of ["abc"] and of 56 and 64 times
    ["a"] (two blocks after padding), as published for SHA-256. *)
Example sha256_empty :
  hex.EncodeToString (sha256.Sum256 [])
  = "e3b0c44298fc1c149afbf4c8996fb92427ae41e4649b934ca495991b7852b855"%string.
Proof. vm_compute. reflexivity. Qed.

Example sha256_abc :
  hex.EncodeToString (sha256.Sum256 [x61; x62; x63])
  = "ba7816bf8f01cfea414140de5dae2223b00361a396177a9cb410ff61f20015ad"%string.
Proof. vm_compute. reflexivity. Qed.

Example sha256_56_a :
  hex.EncodeToString (sha256.Sum256 (repeat x61 56))
  = "b35439a4ac6f0948b6d6f9e3c6af0f5f590ce20f1bde7090ef7970686ec6738a"%string.
Proof. vm_compute. reflexivity. Qed.

Example sha256_64_a :
  hex.EncodeToString (sha256.Sum256 (repeat x61 64))
  = "ffe054fe7ae0cb6dc65c3af9b61d5209f439851db43d0ba5997337df154668eb"%string.
Proof. vm_compute. reflexivity. Qed.

Example entry1_hex :
  Entry.Hex Examples.entry1 = "0201020100000002414243"%string.
Proof. reflexivity. Qed.

Example entry1_hash :
  Entry.Hash Examples.entry1
  = "ad9e2fb1f94582de629f498a055086c31f0621fcb87300d894cae88d86ea6ce3"%string.
Proof. vm_compute. reflexivity. Qed.

Example chain1_id :
  fst (Chain.GenerateID Examples.chain1)
  = "115323e562c4a4fdf7ceacedca660dc4bbe1389dab9323aad08440907c7426d0"%string.
Proof. vm_compute. reflexivity. Qed.

(** The same name segments in the other order give another chain id. *)
Example chain1_id_reversed :
  fst (Chain.GenerateID (Chain.mk [] [[x63]; [x61; x62]] None))
  = "fc8e9a82b53ce73178376790e24fa7a0a9a616972ddef3828a02940400e20e88"%string.
Proof. vm_compute. reflexivity. Qed.

Example chain1_hex :
  Chain.Hex Examples.chain1
  = "09000000000000000200000000000000026162000000000000000163"%string.
Proof. reflexivity. Qed.

Section BindingChecks.

Import json wsapi.

(** Decoding of params: a member is matched up to case, a number is no
    string, and an amount must fit 64 bits. *)
Example bind_upper_case :
  mapToObject (Object [("ADDRESS"%string, Str "FA2")])
                    (zero (A := addressRequest))
  = inl {| Address := "FA2" |}.
Proof. reflexivity. Qed.

Example bind_number_as_name :
  bindable transactionRequest
    (Object [("name"%string, Number "5")]) = false.
Proof. reflexivity. Qed.

Example bind_amount :
  bindable transactionValueRequest
    (Object [("name"%string, Str "t");
                  ("amount"%string, Number "18446744073709551615")]) = true /\
  bindable transactionValueRequest
    (Object [("name"%string, Str "t");
                  ("amount"%string, Number "18446744073709551616")]) = false /\
  bindable transactionValueRequest
    (Object [("name"%string, Str "t");
                  ("amount"%string, Number "1e+21")]) = false.
Proof. repeat split. Qed.

Example bind_array :
  bindable addressRequest (Array []) = false.
Proof. reflexivity. Qed.

End BindingChecks.

(** * Properties *)

(** ** Bytes and big-endian numbers *)

Lemma Z_of_byte_of_Z (n : Z) : Z_of_byte (byte_of_Z n) = n mod 256.
Proof.
  unfold Z_of_byte, byte_of_Z, uint8.
  change (2 ^ 8) with 256.
  assert (Hr : 0 <= n mod 256 < 256) by (apply Z.mod_pos_bound; lia).
  destruct (Byte.of_N (Z.to_N (n mod 256))) as [b|] eqn:E.
  - apply Byte.to_of_N in E. rewrite E. apply Z2N.id. lia.
  - apply Byte.of_N_None_iff in E. lia.
Qed.

Lemma Z_of_byte_range (b : byte) : 0 <= Z_of_byte b < 256.
Proof.
  unfold Z_of_byte. pose proof (Byte.to_N_bounded b). lia.
Qed.

Lemma byte_of_Z_of_byte (b : byte) : byte_of_Z (Z_of_byte b) = b.
Proof.
  unfold byte_of_Z, Z_of_byte, uint8. change (2 ^ 8) with 256.
  rewrite Z.mod_small by (pose proof (Byte.to_N_bounded b); lia).
  rewrite N2Z.id, Byte.of_to_N. reflexivity.
Qed.

Lemma uint8_idem (n : Z) : uint8 (uint8 n) = uint8 n.
Proof. unfold uint8. apply Z.mod_mod. lia. Qed.

Lemma byte_of_Z_uint8 (n : Z) : byte_of_Z (uint8 n) = byte_of_Z n.
Proof. unfold byte_of_Z. rewrite uint8_idem. reflexivity. Qed.

Lemma Uint_PutUint32 (v : Z) :
  BigEndian.Uint (BigEndian.PutUint32 v) = v mod 2 ^ 32.
Proof.
  unfold BigEndian.Uint, BigEndian.PutUint32. cbn [fold_left].
  rewrite !Z_of_byte_of_Z, !Z.shiftr_div_pow2 by lia.
  Z.div_mod_to_equations. lia.
Qed.

Lemma Uint_PutUint64 (v : Z) :
  BigEndian.Uint (BigEndian.PutUint64 v) = v mod 2 ^ 64.
Proof.
  unfold BigEndian.Uint, BigEndian.PutUint64. cbn [fold_left].
  rewrite !Z_of_byte_of_Z, !Z.shiftr_div_pow2 by lia.
  Z.div_mod_to_equations. lia.
Qed.

Lemma len_nonneg {A : Type} (l : list A) : 0 <= len l.
Proof. unfold len. lia. Qed.

Lemma len_to_nat {A : Type} (l : list A) : Z.to_nat (len l) = List.length l.
Proof. unfold len. apply Nat2Z.id. Qed.

Lemma firstn_length_app {A : Type} (a b : list A) :
  firstn (List.length a) (a ++ b) = a.
Proof. induction a as [|x a IH]; simpl; [destruct b|rewrite IH]; reflexivity. Qed.

Lemma skipn_length_app {A : Type} (a b : list A) :
  skipn (List.length a) (a ++ b) = b.
Proof. induction a as [|x a IH]; simpl; [|rewrite IH]; reflexivity. Qed.

(** ** The loops of the two [MarshalBinary] as concatenations *)

Lemma write_loop (put : Z -> list byte) (data : Z -> fixed) :
  (forall buf n, binary_Write buf (data n) = buf ++ put n) ->
  forall l buf,
    fold_left
      (fun buf bytes => Buffer.Write (binary_Write buf (data (len bytes))) bytes)
      l buf
    = buf ++ Layout.prefixed put l.
Proof.
  intros Hput l. induction l as [|x l IH]; intros buf; simpl.
  - symmetry. apply app_nil_r.
  - rewrite IH, Hput. unfold Buffer.Write. now rewrite <- !app_assoc.
Qed.

Lemma Entry_MarshalBinary_eq (e : Entry.t) :
  Entry.MarshalBinary e =
    [byte_of_Z (len (Entry.ChainID e))] ++ Entry.ChainID e ++
    [byte_of_Z (len (Entry.ExtIDs e))] ++
    Layout.prefixed (fun n => BigEndian.PutUint32 (uint32 n)) (Entry.ExtIDs e) ++
    Entry.Data e.
Proof.
  unfold Entry.MarshalBinary.
  rewrite (write_loop (fun n => BigEndian.PutUint32 (uint32 n))
                      (fun n => U32 (uint32 n))) by reflexivity.
  unfold Buffer.Bytes, Buffer.Write, Buffer.empty, binary_Write.
  rewrite byte_of_Z_uint8. simpl. now rewrite <- !app_assoc.
Qed.

Lemma Chain_MarshalBinary_eq (c : Chain.t) :
  Chain.MarshalBinary c =
    Chain.ChainID c ++ BigEndian.PutUint64 (uint64 (len (Chain.Name c))) ++
    Layout.prefixed (fun n => BigEndian.PutUint64 (uint64 n)) (Chain.Name c).
Proof.
  unfold Chain.MarshalBinary.
  rewrite (write_loop (fun n => BigEndian.PutUint64 (uint64 n))
                      (fun n => U64 (uint64 n))) by reflexivity.
  unfold Buffer.Bytes, Buffer.Write, Buffer.empty, binary_Write.
  simpl. now rewrite <- !app_assoc.
Qed.

(** ** The layout of an encoded entry *)

Lemma items_prefixed (put : Z -> list byte) (field : list byte -> Z -> Prop)
      (l : list (list byte)) :
  (forall x, In x l -> field (put (len x)) (len x)) ->
  Layout.items field l (Layout.prefixed put l).
Proof.
  induction l as [|x l IH]; intros Hf; cbn.
  - constructor.
  - rewrite <- app_assoc. constructor.
    + apply Hf. now left.
    + apply IH. intros y Hy. apply Hf. now right.
Qed.

Lemma be32_PutUint32 (n : Z) :
  Layout.be32_is (BigEndian.PutUint32 (uint32 n)) (n mod 2 ^ 32).
Proof.
  split; [reflexivity|].
  rewrite Uint_PutUint32. unfold uint32. apply Z.mod_mod. lia.
Qed.

Lemma be64_PutUint64 (n : Z) :
  Layout.be64_is (BigEndian.PutUint64 (uint64 n)) (n mod 2 ^ 64).
Proof.
  split; [reflexivity|].
  rewrite Uint_PutUint64. unfold uint64. apply Z.mod_mod. lia.
Qed.

(** Whatever the entry, the output has the five parts in order, with each
    length reduced to the width of its field. *)
Lemma MarshalBinary_wrapped (e : Entry.t) :
  Layout.entry_wrapped e (Entry.MarshalBinary e).
Proof.
  exists (byte_of_Z (len (Entry.ChainID e))),
         (byte_of_Z (len (Entry.ExtIDs e))),
         (Layout.prefixed (fun n => BigEndian.PutUint32 (uint32 n)) (Entry.ExtIDs e)).
  repeat split.
  - apply Z_of_byte_of_Z.
  - apply Z_of_byte_of_Z.
  - apply items_prefixed. intros x _. apply be32_PutUint32.
  - apply Entry_MarshalBinary_eq.
Qed.

Lemma items_weaken (f g : list byte -> Z -> Prop) (l : list (list byte))
      (out : list byte) :
  (forall x bs, In x l -> f bs (len x) -> g bs (len x)) ->
  Layout.items f l out -> Layout.items g l out.
Proof.
  intros Hfg H. induction H as [|x xs bs out Hx Hxs IH].
  - constructor.
  - constructor.
    + apply Hfg; [now left|exact Hx].
    + apply IH. intros y b Hy. apply Hfg. now right.
Qed.

(** Within the limits every length fits its field, and the output is the
    layout of section 4.2 as it is written. *)
Lemma MarshalBinary_exact (e : Entry.t) :
  Layout.within_limits e -> Layout.entry e (Entry.MarshalBinary e).
Proof.
  intros (Hc & Hn & Hx).
  destruct (MarshalBinary_wrapped e) as (b & c & exts & Hb & Hcnt & Hi & Hout).
  exists b, c, exts. unfold Layout.byte_is in *.
  pose proof (len_nonneg (Entry.ChainID e)).
  pose proof (len_nonneg (Entry.ExtIDs e)).
  rewrite Z.mod_small in Hb, Hcnt by lia.
  repeat split; try assumption.
  - revert Hi. apply items_weaken. intros x bs Hin [Hl Hv].
    rewrite Forall_forall in Hx. specialize (Hx x Hin). cbv beta in Hx.
    pose proof (len_nonneg x).
    rewrite Z.mod_small in Hv by lia. now split.
Qed.

(** What the first byte of an output in either layout is. *)
Lemma layout_head (e : Entry.t) (b c : byte) (exts : list byte) :
  Entry.MarshalBinary e = [b] ++ Entry.ChainID e ++ [c] ++ exts ++ Entry.Data e ->
  b = byte_of_Z (len (Entry.ChainID e)) /\ c = byte_of_Z (len (Entry.ExtIDs e)).
Proof.
  rewrite Entry_MarshalBinary_eq. cbn [app]. intros H.
  injection H as Hb Hrest. split; [now symmetry|].
  apply app_inv_head in Hrest. now injection Hrest as Hc _.
Qed.

(** An entry over a one-byte limit does not have the layout as written:
    the byte in the output is not its length. *)
Lemma oversized_not_exact (e : Entry.t) :
  255 < len (Entry.ChainID e) \/ 255 < len (Entry.ExtIDs e) ->
  ~ Layout.entry e (Entry.MarshalBinary e).
Proof.
  intros Hover (b & c & exts & Hb & Hc & _ & Hout).
  apply layout_head in Hout. destruct Hout as [-> ->].
  unfold Layout.byte_is in *. rewrite Z_of_byte_of_Z in Hb, Hc.
  pose proof (Z.mod_pos_bound (len (Entry.ChainID e)) 256).
  pose proof (Z.mod_pos_bound (len (Entry.ExtIDs e)) 256).
  lia.
Qed.

(** ** Reading an encoded entry back *)

Lemma read_extids_prefixed (l : list (list byte)) (rest : list byte) :
  Forall (fun x => len x < 2 ^ 32) l ->
  Layout.read_extids (List.length l)
    (Layout.prefixed (fun n => BigEndian.PutUint32 (uint32 n)) l ++ rest)
  = Some (l, rest).
Proof.
  induction 1 as [|x l Hx Hl IH]; [reflexivity|].
  cbn [List.length Layout.read_extids Layout.prefixed flat_map].
  fold (Layout.prefixed (fun n => BigEndian.PutUint32 (uint32 n)) l).
  rewrite <- !app_assoc.
  set (tail := Layout.prefixed _ l ++ rest) in *.
  assert (Hn : Z.to_nat (BigEndian.Uint (BigEndian.PutUint32 (uint32 (len x))))
               = List.length x).
  { rewrite Uint_PutUint32. unfold uint32. pose proof (len_nonneg x).
    rewrite Z.mod_mod, Z.mod_small by lia. apply len_to_nat. }
  change (firstn 4 (BigEndian.PutUint32 (uint32 (len x)) ++ x ++ tail))
    with (BigEndian.PutUint32 (uint32 (len x))).
  change (skipn 4 (BigEndian.PutUint32 (uint32 (len x)) ++ x ++ tail))
    with (x ++ tail).
  change (List.length (BigEndian.PutUint32 (uint32 (len x)) ++ x ++ tail) <? 4)%nat
    with false.
  rewrite Hn.
  replace (List.length (x ++ tail) <? List.length x)%nat with false
    by (symmetry; apply Nat.ltb_ge; rewrite length_app; lia).
  rewrite skipn_length_app, firstn_length_app, IH. reflexivity.
Qed.

Lemma decode_MarshalBinary (e : Entry.t) :
  Layout.within_limits e -> Layout.decode (Entry.MarshalBinary e) = Some e.
Proof.
  intros (Hc & Hn & Hx). rewrite Entry_MarshalBinary_eq.
  destruct e as [chainID extIDs data]. cbn [Entry.ChainID Entry.ExtIDs Entry.Data] in *.
  cbn [app Layout.decode].
  pose proof (len_nonneg chainID). pose proof (len_nonneg extIDs).
  rewrite Z_of_byte_of_Z, Z.mod_small, len_to_nat by lia.
  replace (List.length (chainID ++ _) <? List.length chainID)%nat with false
    by (symmetry; apply Nat.ltb_ge; rewrite length_app; lia).
  rewrite skipn_length_app, firstn_length_app.
  rewrite Z_of_byte_of_Z, Z.mod_small, len_to_nat by lia.
  rewrite read_extids_prefixed by assumption. reflexivity.
Qed.

(** The layout determines the output: the bytes of each length field are
    fixed by the number they hold. *)

Lemma byte_is_inj (b b' : byte) (n : Z) :
  Layout.byte_is b n -> Layout.byte_is b' n -> b = b'.
Proof.
  unfold Layout.byte_is. intros H H'.
  rewrite <- (byte_of_Z_of_byte b), <- (byte_of_Z_of_byte b'). congruence.
Qed.

Lemma byte_of_Z_mod (n : Z) (b : byte) :
  n mod 256 = Z_of_byte b -> byte_of_Z n = b.
Proof.
  intros H. rewrite <- (byte_of_Z_of_byte b), <- H.
  unfold byte_of_Z, uint8. change (2 ^ 8) with 256.
  rewrite Z.mod_mod by lia. reflexivity.
Qed.

Lemma PutUint32_Uint (a b c d : byte) :
  BigEndian.PutUint32 (BigEndian.Uint [a; b; c; d]) = [a; b; c; d].
Proof.
  unfold BigEndian.Uint, BigEndian.PutUint32. cbn [fold_left].
  pose proof (Z_of_byte_range a). pose proof (Z_of_byte_range b).
  pose proof (Z_of_byte_range c). pose proof (Z_of_byte_range d).
  rewrite !Z.shiftr_div_pow2 by lia.
  repeat f_equal; apply byte_of_Z_mod; Z.div_mod_to_equations; lia.
Qed.

Lemma be32_is_inj (l l' : list byte) (n : Z) :
  Layout.be32_is l n -> Layout.be32_is l' n -> l = l'.
Proof.
  intros [Hl Hv] [Hl' Hv'].
  destruct l as [|a [|b [|c [|d [|]]]]]; try discriminate.
  destruct l' as [|a' [|b' [|c' [|d' [|]]]]]; try discriminate.
  rewrite <- (PutUint32_Uint a b c d), <- (PutUint32_Uint a' b' c' d').
  congruence.
Qed.

Lemma items_be32_inj (l : list (list byte)) (out out' : list byte) :
  Layout.items (fun bs n => Layout.be32_is bs (n mod 2 ^ 32)) l out ->
  Layout.items (fun bs n => Layout.be32_is bs (n mod 2 ^ 32)) l out' ->
  out = out'.
Proof.
  intros H. revert out'. induction H as [|x xs bs out Hx Hxs IH]; intros out' H'.
  - now inversion H'.
  - inversion H' as [|x' xs' bs' out'' Hx' Hxs']; subst.
    rewrite (be32_is_inj _ _ _ Hx Hx'), (IH _ Hxs'). reflexivity.
Qed.

Lemma entry_wrapped_unique (e : Entry.t) (out : list byte) :
  Layout.entry_wrapped e out -> out = Entry.MarshalBinary e.
Proof.
  intros (b & c & exts & Hb & Hc & Hi & ->).
  destruct (MarshalBinary_wrapped e) as (b' & c' & exts' & Hb' & Hc' & Hi' & ->).
  rewrite (byte_is_inj _ _ _ Hb Hb'), (byte_is_inj _ _ _ Hc Hc'),
    (items_be32_inj _ _ _ Hi Hi').
  reflexivity.
Qed.

(** ** Digests and their hexadecimal rendering *)

Lemma Sum256_length (data : list byte) : List.length (sha256.Sum256 data) = 32%nat.
Proof. reflexivity. Qed.

Lemma EncodeToString_length (src : list byte) :
  String.length (hex.EncodeToString src) = (2 * List.length src)%nat.
Proof.
  induction src as [|v src IH]; [reflexivity|].
  cbn [hex.EncodeToString String.length List.length]. rewrite IH. lia.
Qed.

Lemma digits_lower_hex (v : byte) :
  hex.is_lower_hex (hex.digit (Z.shiftr (Z_of_byte v) 4)) = true /\
  hex.is_lower_hex (hex.digit (Z.land (Z_of_byte v) 15)) = true.
Proof. destruct v; split; reflexivity. Qed.

Lemma EncodeToString_lower (src : list byte) :
  hex.all_lower_hex (hex.EncodeToString src) = true.
Proof.
  induction src as [|v src IH]; [reflexivity|].
  cbn [hex.EncodeToString hex.all_lower_hex].
  destruct (digits_lower_hex v) as [-> ->]. exact IH.
Qed.

Lemma digits_decode (v : byte) :
  exists x y,
    hex.fromHexChar (hex.digit (Z.shiftr (Z_of_byte v) 4)) = Some x /\
    hex.fromHexChar (hex.digit (Z.land (Z_of_byte v) 15)) = Some y /\
    byte_of_Z (Z.lor (Z.shiftl x 4) y) = v.
Proof. destruct v; do 2 eexists; repeat split. Qed.

Lemma DecodeString_EncodeToString (src : list byte) :
  hex.DecodeString (hex.EncodeToString src) = Some src.
Proof.
  induction src as [|v src IH]; [reflexivity|].
  cbn [hex.EncodeToString hex.DecodeString].
  destruct (digits_decode v) as (x & y & -> & -> & Hv).
  rewrite IH, Hv. reflexivity.
Qed.

Lemma append_loop {A : Type} (l b : list A) :
  fold_left (fun b w => b ++ [w]) l b = b ++ l.
Proof.
  revert b. induction l as [|w l IH]; intros b; cbn.
  - symmetry. apply app_nil_r.
  - rewrite IH, <- app_assoc. reflexivity.
Qed.

Lemma digest_loop (name : list (list byte)) (b : list byte) :
  fold_left (fun b v => fold_left (fun b w => b ++ [w]) (sha v) b) name b
  = b ++ List.concat (map sha256.Sum256 name).
Proof.
  revert b. induction name as [|v name IH]; intros b; cbn [fold_left map List.concat].
  - symmetry. apply app_nil_r.
  - rewrite IH, append_loop, <- app_assoc. reflexivity.
Qed.

(** ** The claims about the codec *)

(** C1, as stated, fails on an entry over a limit.  The claim reads: for
    every entry the output is one byte equal to the length of the chain id,
    the chain id, one byte equal to the number of external ids, each
    external id behind a 4-byte big-endian length, and the data.  For the
    entry whose chain id has 256 bytes the first byte of the output is [00],
    which is not its length. *)
Lemma C1_counterexample :
  ~ Layout.entry Examples.long_chainid (Entry.MarshalBinary Examples.long_chainid).
Proof.
  apply oversized_not_exact. left. reflexivity.
Qed.

(** C1, amended: for every entry the output is the concatenation of one
    byte equal to the length of the chain id modulo 256, the raw chain id,
    one byte equal to the number of external ids modulo 256, for each
    external id in order a 4-byte big-endian field equal to its length modulo
    [2^32] followed by its raw bytes, and the raw data without a length; no
    other byte sequence has this shape.  For an entry within the limits the
    fields are equal to the lengths themselves.  The entry of the example
    encodes to [02 01 02 01 00 00 00 02 41 42 43]. *)
Theorem C1_entry_layout :
  (forall (e : Entry.t) (out : list byte),
      Layout.entry_wrapped e out <-> out = Entry.MarshalBinary e) /\
  (forall e : Entry.t,
      Layout.within_limits e -> Layout.entry e (Entry.MarshalBinary e)) /\
  Entry.MarshalBinary Examples.entry1
  = [x02; x01; x02; x01; x00; x00; x00; x02; x41; x42; x43].
Proof.
  split; [|split].
  - intros e out. split.
    + apply entry_wrapped_unique.
    + intros ->. apply MarshalBinary_wrapped.
  - apply MarshalBinary_exact.
  - reflexivity.
Qed.

Lemma C1_entry_layout_witness :
  Layout.within_limits Examples.entry1 /\
  Layout.entry Examples.entry1 (Entry.MarshalBinary Examples.entry1).
Proof.
  assert (H : Layout.within_limits Examples.entry1).
  { split; [|split].
    - vm_compute. discriminate.
    - vm_compute. discriminate.
    - repeat constructor. }
  split; [exact H|].
  exact (proj1 (proj2 C1_entry_layout) Examples.entry1 H).
Defined.

(** C4: for every entry whose chain id has at most 255 bytes, that has at
    most 255 external ids, each shorter than [2^32] bytes, reading
    [MarshalBinary e] back by the inverse of the layout (a one-byte chain-id
    length, that many bytes, a one-byte count, per external id a 4-byte
    big-endian length and that many bytes, the remainder as data) gives the
    chain id, the external ids in order and the data of [e]. *)
Theorem C4_round_trip (e : Entry.t) :
  len (Entry.ChainID e) <= 255 ->
  len (Entry.ExtIDs e) <= 255 ->
  Forall (fun x => len x < 2 ^ 32) (Entry.ExtIDs e) ->
  Layout.decode (Entry.MarshalBinary e) = Some e.
Proof.
  intros Hc Hn Hx. apply decode_MarshalBinary. now repeat split.
Qed.

Lemma C4_round_trip_witness :
  Layout.decode (Entry.MarshalBinary Examples.entry1) = Some Examples.entry1.
Proof.
  apply (C4_round_trip Examples.entry1).
  - vm_compute. discriminate.
  - vm_compute. discriminate.
  - repeat constructor.
Defined.

(** C5: for every entry whose chain id is longer than 255 bytes, or that
    has more than 255 external ids, [MarshalBinary] still produces its output
    (the function is total and has no error result): the one-byte fields hold
    the length and the count modulo 256, the rest of the layout is written as
    usual, and the output is not the layout with the true length in each
    field. *)
Theorem C5_silent_truncation (e : Entry.t) :
  255 < len (Entry.ChainID e) \/ 255 < len (Entry.ExtIDs e) ->
  Layout.entry_wrapped e (Entry.MarshalBinary e) /\
  ~ Layout.entry e (Entry.MarshalBinary e) /\
  hd_error (Entry.MarshalBinary e)
  = Some (byte_of_Z (len (Entry.ChainID e) mod 256)) /\
  nth_error (Entry.MarshalBinary e) (S (List.length (Entry.ChainID e)))
  = Some (byte_of_Z (len (Entry.ExtIDs e) mod 256)).
Proof.
  intros Hover. split; [apply MarshalBinary_wrapped|].
  split; [now apply oversized_not_exact|].
  rewrite Entry_MarshalBinary_eq. cbn [app hd_error nth_error].
  change 256 with (2 ^ 8). fold (uint8 (len (Entry.ChainID e))).
  fold (uint8 (len (Entry.ExtIDs e))). rewrite !byte_of_Z_uint8.
  split; [reflexivity|].
  rewrite nth_error_app2 by lia. now rewrite Nat.sub_diag.
Qed.

Lemma C5_silent_truncation_witness :
  hd_error (Entry.MarshalBinary Examples.long_chainid) = Some x00 /\
  nth_error (Entry.MarshalBinary Examples.many_extids) 1 = Some x01.
Proof.
  split.
  - refine (proj1 (proj2 (proj2 (C5_silent_truncation Examples.long_chainid _)))).
    left. reflexivity.
  - refine (proj2 (proj2 (proj2 (C5_silent_truncation Examples.many_extids _)))).
    right. reflexivity.
Defined.

(** C6: for every chain, [MarshalBinary] is the raw chain id, the number of
    name segments as an 8-byte big-endian number, and for each segment in
    order its length as an 8-byte big-endian number followed by its raw
    bytes; the first entry has no part in it.  (A Go slice is shorter than
    [2^63], so the bound on the lengths holds of every chain.) *)
Theorem C6_chain_encoding (c : Chain.t) :
  Chain.MarshalBinary c
  = Chain.ChainID c ++ BigEndian.PutUint64 (uint64 (len (Chain.Name c))) ++
    Layout.prefixed (fun n => BigEndian.PutUint64 (uint64 n)) (Chain.Name c) /\
  (len (Chain.Name c) < 2 ^ 64 ->
   Forall (fun x => len x < 2 ^ 64) (Chain.Name c) ->
   Layout.chain c (Chain.MarshalBinary c)) /\
  (forall c' : Chain.t,
      Chain.ChainID c' = Chain.ChainID c -> Chain.Name c' = Chain.Name c ->
      Chain.MarshalBinary c' = Chain.MarshalBinary c).
Proof.
  split; [apply Chain_MarshalBinary_eq|]. split.
  - intros Hn Hx.
    exists (BigEndian.PutUint64 (uint64 (len (Chain.Name c)))),
           (Layout.prefixed (fun n => BigEndian.PutUint64 (uint64 n)) (Chain.Name c)).
    split; [|split].
    + pose proof (be64_PutUint64 (len (Chain.Name c))) as H.
      pose proof (len_nonneg (Chain.Name c)).
      now rewrite Z.mod_small in H by lia.
    + apply items_prefixed. intros x Hin.
      rewrite Forall_forall in Hx. specialize (Hx x Hin). cbv beta in Hx.
      pose proof (be64_PutUint64 (len x)) as H. pose proof (len_nonneg x).
      now rewrite Z.mod_small in H by lia.
    + apply Chain_MarshalBinary_eq.
  - intros c' Hid Hname. rewrite !Chain_MarshalBinary_eq, Hid, Hname. reflexivity.
Qed.

Lemma C6_chain_encoding_witness :
  Layout.chain Examples.chain1 (Chain.MarshalBinary Examples.chain1) /\
  Chain.MarshalBinary Examples.chain1' = Chain.MarshalBinary Examples.chain1.
Proof.
  split.
  - apply (proj1 (proj2 (C6_chain_encoding Examples.chain1))).
    + reflexivity.
    + repeat constructor.
  - apply (proj2 (proj2 (C6_chain_encoding Examples.chain1))); reflexivity.
Defined.

(** C2: for every chain, [GenerateID] takes the SHA-256 digest of each name
    segment in order, concatenates these 32-byte digests in that order, takes
    the SHA-256 digest of the concatenation, stores it into [ChainID] (the
    name and the first entry stay as they are) and returns that 32-byte
    digest in lowercase hexadecimal. *)
Theorem C2_generate_id (c : Chain.t) :
  Chain.GenerateID c
  = (hex.EncodeToString
       (sha256.Sum256 (List.concat (map sha256.Sum256 (Chain.Name c)))),
     Chain.mk (sha256.Sum256 (List.concat (map sha256.Sum256 (Chain.Name c))))
              (Chain.Name c) (Chain.FirstEntry c)) /\
  Forall (fun d => List.length d = 32%nat) (map sha256.Sum256 (Chain.Name c)) /\
  List.length (Chain.ChainID (snd (Chain.GenerateID c))) = 32%nat /\
  hex.all_lower_hex (fst (Chain.GenerateID c)) = true /\
  hex.DecodeString (fst (Chain.GenerateID c))
  = Some (Chain.ChainID (snd (Chain.GenerateID c))).
Proof.
  unfold Chain.GenerateID. rewrite digest_loop. cbn [app fst snd Chain.ChainID].
  unfold sha. split; [reflexivity|]. split; [|split; [|split]].
  - apply Forall_forall. intros d Hd. apply in_map_iff in Hd.
    destruct Hd as (v & <- & _). reflexivity.
  - reflexivity.
  - apply EncodeToString_lower.
  - apply DecodeString_EncodeToString.
Qed.

(** C3: for every entry, [Hash] is the lowercase hexadecimal rendering of
    the SHA-256 digest of [MarshalBinary e], 64 digits long, and it depends
    on nothing but the three fields: entries with equal chain id, external
    ids and data have the same hash. *)
Theorem C3_entry_hash (e : Entry.t) :
  Entry.Hash e = hex.EncodeToString (sha256.Sum256 (Entry.MarshalBinary e)) /\
  hex.all_lower_hex (Entry.Hash e) = true /\
  String.length (Entry.Hash e) = 64%nat /\
  hex.DecodeString (Entry.Hash e) = Some (sha256.Sum256 (Entry.MarshalBinary e)) /\
  (forall e' : Entry.t,
      Entry.ChainID e' = Entry.ChainID e ->
      Entry.ExtIDs e' = Entry.ExtIDs e ->
      Entry.Data e' = Entry.Data e ->
      Entry.Hash e' = Entry.Hash e).
Proof.
  assert (H : Entry.Hash e
              = hex.EncodeToString (sha256.Sum256 (Entry.MarshalBinary e)))
    by reflexivity.
  rewrite H. split; [reflexivity|]. split; [|split; [|split]].
  - apply EncodeToString_lower.
  - rewrite EncodeToString_length. reflexivity.
  - apply DecodeString_EncodeToString.
  - intros e' Hc Hx Hd. destruct e, e'. cbn in Hc, Hx, Hd. subst.
    reflexivity.
Qed.

Lemma C3_entry_hash_witness :
  Entry.Hash (Entry.mk [x01; x02] [[x41; x42]] [x43]) = Entry.Hash Examples.entry1.
Proof.
  apply (proj2 (proj2 (proj2 (proj2 (C3_entry_hash Examples.entry1)))));
    reflexivity.
Defined.

(** C7: [Hash] of a chain is the same string for every two chains, whatever
    their chain id, name and first entry: it is the constant ["abcdefg"],
    which is not the hexadecimal rendering of any bytes, hence not the commit
    hash its comment announces. *)
Theorem C7_chain_hash_constant (c1 c2 : Chain.t) :
  Chain.Hash c1 = Chain.Hash c2 /\
  Chain.Hash c1 = "abcdefg"%string /\
  (forall bs : list byte, hex.EncodeToString bs <> Chain.Hash c1).
Proof.
  repeat split. intros bs H.
  apply (f_equal String.length) in H. rewrite EncodeToString_length in H.
  cbn in H. lia.
Qed.

(** ** The dispatcher *)

Section Dispatcher.

Import json wsapi.

Lemma handleV2Request_error (j : JSON2Request) (e : JSONError) :
  dispatch (Method j) (Params j) = Ret (None, Some e) ->
  handleV2Request j = Ret (None, Some e).
Proof. unfold handleV2Request. intros ->. reflexivity. Qed.

Lemma respond_error (j : JSON2Request) (e : JSONError) :
  handleV2Request j = Ret (None, Some e) ->
  respond j = Ret (Some {| rID := ID j; Result := None; Error := Some e |}).
Proof. unfold respond. intros ->. reflexivity. Qed.

Lemma unknown_method (m : string) (params : value) :
  ~ In m methods -> dispatch m params = Ret (None, Some newMethodNotFoundError).
Proof.
  intros Hm. unfold dispatch.
  repeat match goal with
         | |- context [String.eqb m ?s] =>
             destruct (String.eqb_spec m s) as [->|_];
             [exfalso; apply Hm; cbn; tauto|]
         end.
  reflexivity.
Qed.

(** Params that do not fill the request struct: the handler returns at
    once. *)
Lemma unbound_params (m : string) (params : value) :
  binds m params = false ->
  dispatch m params = Ret (None, Some newInvalidParamsError).
Proof.
  unfold binds, dispatch, bindable.
  repeat match goal with
         | |- context [String.eqb m ?s] => destruct (String.eqb m s)
         end;
    try discriminate;
    unfold handleAddress, handleImportAddresses, handleNewTransaction,
      handleDeleteTransaction, handleAddInput, handleAddOutput,
      handleAddECOutput, handleAddFee, handleSubFee, handleSignTransaction,
      handleComposeTransaction;
    match goal with
    | |- context [mapToObject params ?z] => destruct (mapToObject params z)
    end; (discriminate || reflexivity).
Qed.

Lemma none_stays (A : Type) (fs : list (field A)) (members : list (string * value)) :
  fold_left
    (fun acc kv =>
       match acc with
       | None => None
       | Some d =>
           match find_field fs (fst kv) with
           | Some f => fstore f d (snd kv)
           | None => Some d
           end
       end)
    members None = None.
Proof. induction members as [|kv members IH]; [reflexivity|exact IH]. Qed.

Lemma address_field (key : string) :
  find_field (fields (A := addressRequest)) key
  = if String.eqb (foldName "address") (foldName key)
    then Some (hd (mkField "" (fun r _ => Some r)) (fields (A := addressRequest)))
    else None.
Proof.
  unfold find_field. cbn [fields addressRequest_struct find fname hd].
  destruct (String.eqb_spec "address" key) as [<-|Hk]; [reflexivity|].
  destruct (String.eqb (foldName "address") (foldName key)); reflexivity.
Qed.

Lemma address_members (members : list (string * value)) (r : addressRequest) :
  (exists r', into_struct fields r (Object members) = Some r')
  <-> address_shape (Object members) = true.
Proof.
  cbn [into_struct address_shape]. revert r.
  induction members as [|[key v] members IH]; intros r; cbn [fold_left forallb fst snd].
  - split; [reflexivity|]. intros _. now exists r.
  - rewrite address_field.
    destruct (String.eqb (foldName "address") (foldName key)); cbn [hd fstore].
    + destruct v; cbn [into_string option_map string_or_null andb];
        try (rewrite none_stays; split; [intros [? ?]|intros ?]; discriminate);
        apply IH.
    + apply IH.
Qed.

Lemma bindable_address (params : value) :
  bindable addressRequest params = address_shape params.
Proof.
  unfold bindable, mapToObject, Marshal, Unmarshal.
  destruct params as [| | | | |members];
    try reflexivity.
  pose proof (address_members members zero) as H.
  destruct (into_struct fields zero (Object members)) as [r'|].
  - symmetry. apply H. now exists r'.
  - destruct (address_shape (Object members)); [|reflexivity].
    destruct (proj2 H eq_refl) as [? ?]. discriminate.
Qed.

(** [handleV2] on a body that is read and parsed into [j] goes on as
    [respond j]; a body that cannot be read or parsed is answered by the
    invalid-request error without an identifier. *)
Lemma handleV2_parsed (W : Type) (h : world W) (w w1 w2 : W)
      (body : string) (j : JSON2Request) :
  h _ (Context ReadAll) w = (Ok body, w1) ->
  h _ (Factom (ParseJSON2Request body)) w1 = (Ok j, w2) ->
  run h handleV2 w = run h (respond j) w2.
Proof.
  intros Hread Hparse. cbn. rewrite Hread. cbn. rewrite Hparse. reflexivity.
Qed.

Lemma handleV2_unparsed (W : Type) (h : world W) (w w1 w2 : W)
      (body : string) (e : error) :
  h _ (Context ReadAll) w = (Ok body, w1) ->
  h _ (Factom (ParseJSON2Request body)) w1 = (Err e, w2) ->
  fst (run h handleV2 w)
  = Some {| rID := Null; Result := None; Error := Some InvalidRequest |}.
Proof.
  intros Hread Hparse. cbn. rewrite Hread. cbn. rewrite Hparse. reflexivity.
Qed.

End Dispatcher.

(** ** The claims about the dispatcher *)

Section DispatcherClaims.

Import json wsapi.

(** C8: for every parsed request whose method is none of the fifteen
    names, [handleV2Request] returns the method-not-found error and no
    response, by its default case and without any call; the response written
    for it carries that error, no result, and the identifier of the request.
    The request [{"method":"bogus","params":{},"id":7}] is answered by a
    method-not-found error with identifier [7], and the wallet is left as it
    was when the body had been parsed. *)
Theorem C8_method_not_found :
  (forall j : JSON2Request,
      ~ In (Method j) methods ->
      handleV2Request j = Ret (None, Some newMethodNotFoundError) /\
      respond j
      = Ret (Some {| rID := ID j; Result := None;
                     Error := Some newMethodNotFoundError |})) /\
  respond Examples.bogus
  = Ret (Some {| rID := Number "7"; Result := None; Error := Some MethodNotFound |}) /\
  (forall (W : Type) (h : world W) (w w1 w2 : W) (body : string),
      h _ (Context ReadAll) w = (Ok body, w1) ->
      h _ (Factom (ParseJSON2Request body)) w1 = (Ok Examples.bogus, w2) ->
      run h handleV2 w
      = (Some {| rID := Number "7"; Result := None; Error := Some MethodNotFound |},
         w2)).
Proof.
  split; [|split; [reflexivity|]].
  - intros j Hm.
    assert (H : handleV2Request j = Ret (None, Some newMethodNotFoundError))
      by (apply handleV2Request_error, unknown_method, Hm).
    split; [exact H|]. apply respond_error, H.
  - intros W h w w1 w2 body Hread Hparse.
    rewrite (handleV2_parsed W h w w1 w2 body Examples.bogus Hread Hparse).
    reflexivity.
Qed.

Lemma C8_method_not_found_witness :
  handleV2Request Examples.bogus = Ret (None, Some newMethodNotFoundError) /\
  respond Examples.bogus
  = Ret (Some {| rID := ID Examples.bogus; Result := None;
                 Error := Some newMethodNotFoundError |}).
Proof.
  apply (proj1 C8_method_not_found Examples.bogus).
  cbn. intuition discriminate.
Defined.

(** C9, as stated, fails on its own example.  The claim reads: params
    that do not match the shape the handler expects yield the invalid-params
    error, and so does [{"method":"address","params":{"addr":"x"},"id":1}].
    Decoding skips the member [addr], of a name that [addressRequest] does
    not have; the address stays empty, and with a collaborator that
    recognizes no address the request ends in the internal error of the
    [default] case of [handleAddress]. *)
Lemma C9_counterexample :
  fst (run Examples.refusing (handleV2Request Examples.address_addr) tt)
  = (None, Some (InternalError "Invalid address type")) /\
  fst (run Examples.refusing (handleV2Request Examples.address_addr) tt)
  <> (None, Some InvalidParams).
Proof. split; [reflexivity|discriminate]. Qed.

(** C9, amended: when the params of a recognized method do not fill the
    request struct of its handler, the dispatcher returns the invalid-params
    error at once, before any call of the wallet.  For [address] the params
    fill the struct exactly when they are null or an object in which every
    member named [address] (up to case) holds a string or null; members of
    other names are skipped.  So the request
    [{"method":"address","params":{"addr":"x"},"id":1}] is bound with an empty
    address and never yields the invalid-params error: it goes on to the
    classification of the empty address, and is answered by the internal error
    "Invalid address type" whenever that is neither [ECPub] nor
    [FactoidPub]. *)
Theorem C9_params_binding :
  (forall j : JSON2Request,
      binds (Method j) (Params j) = false ->
      handleV2Request j = Ret (None, Some newInvalidParamsError) /\
      returns_at_once (handleV2Request j) = true) /\
  (forall params : value,
      bindable addressRequest params = address_shape params) /\
  mapToObject (Params Examples.address_addr) zero = inl {| Address := "" |} /\
  (forall (W : Type) (h : world W) (w : W),
      snd (fst (run h (handleV2Request Examples.address_addr) w))
      <> Some InvalidParams) /\
  (forall (W : Type) (h : world W) (w : W),
      fst (h _ (Factom (AddressStringType "")) w) <> ECPub ->
      fst (h _ (Factom (AddressStringType "")) w) <> FactoidPub ->
      fst (run h (handleV2Request Examples.address_addr) w)
      = (None, Some (InternalError "Invalid address type"))).
Proof.
  split; [|split; [|split; [|split]]].
  - intros j Hb.
    assert (H : handleV2Request j = Ret (None, Some newInvalidParamsError))
      by (apply handleV2Request_error, unbound_params, Hb).
    rewrite H. split; reflexivity.
  - apply bindable_address.
  - reflexivity.
  - intros W h w. evaluate. cbn.
    answer h; try discriminate; answer h; discriminate.
  - intros W h w Hec Hfct. evaluate. cbn in *. answer h; try reflexivity.
    + now elim Hfct.
    + now elim Hec.
Qed.

Lemma C9_params_binding_witness :
  handleV2Request Examples.address_number = Ret (None, Some newInvalidParamsError) /\
  returns_at_once (handleV2Request Examples.address_number) = true.
Proof.
  apply (proj1 C9_params_binding Examples.address_number). reflexivity.
Defined.

(** C10: the handlers of [generate-ec-address], [generate-factoid-address],
    [all-addresses] and [wallet-backup] never look at their params: whatever
    the params (object, array, string, null), the program is the same, its
    first step is the call of the wallet, and whatever the wallet answers the
    request does not end in the invalid-params error. *)
Theorem C10_params_ignored (m : string) (params : value) :
  In m unchecked_methods ->
  (forall q : value, dispatch m params = dispatch m q) /\
  starts_with_wallet (dispatch m params) = true /\
  (forall (id : value) (W : Type) (h : world W) (w : W),
      snd (fst (run h (handleV2Request
                         {| Method := m; Params := params; ID := id |}) w))
      <> Some InvalidParams).
Proof.
  intros Hm. cbn in Hm.
  destruct Hm as [<-|[<-|[<-|[<-|[]]]]];
    (split; [reflexivity|]; split; [reflexivity|]);
    intros id W h w; evaluate; cbn; answer h; try discriminate.
  - destruct a; cbn; discriminate.
  - answer h; try discriminate. destruct a0; cbn; discriminate.
Qed.

Lemma C10_params_ignored_witness :
  dispatch "wallet-backup" (Str "anything") = dispatch "wallet-backup" Null /\
  starts_with_wallet (dispatch "wallet-backup" (Str "anything")) = true.
Proof.
  pose proof (C10_params_ignored "wallet-backup" (Str "anything")) as H.
  destruct H as (Hsame & Hfirst & _).
  - cbn. tauto.
  - split; [apply Hsame|exact Hfirst].
Defined.

End DispatcherClaims.

(** * Further properties of the codec *)

Lemma prefixed_length (n : nat) (put : Z -> list byte) (l : list (list byte)) :
  (forall v, List.length (put v) = n) ->
  List.length (Layout.prefixed put l)
  = list_sum (map (fun x => (n + List.length x)%nat) l).
Proof.
  intros Hput. induction l as [|x l IH]; [reflexivity|].
  cbn [Layout.prefixed flat_map map list_sum].
  fold (Layout.prefixed put l). rewrite !length_app, Hput, IH. reflexivity.
Qed.

(** X1: the encoding of an entry is two bytes longer than its chain id,
    its data and its external ids together, plus four bytes for each
    external id; [Hex] has twice as many digits.  No limit is needed. *)
Theorem entry_encoding_length (e : Entry.t) :
  List.length (Entry.MarshalBinary e)
  = (2 + List.length (Entry.ChainID e)
     + list_sum (map (fun x => 4 + List.length x) (Entry.ExtIDs e))
     + List.length (Entry.Data e))%nat /\
  String.length (Entry.Hex e) = (2 * List.length (Entry.MarshalBinary e))%nat.
Proof.
  split; [|apply EncodeToString_length].
  rewrite Entry_MarshalBinary_eq, !length_app.
  rewrite (prefixed_length 4) by reflexivity. cbn [List.length]. lia.
Qed.

Lemma EncodeToString_inj (a b : list byte) :
  hex.EncodeToString a = hex.EncodeToString b -> a = b.
Proof.
  intros H. apply (f_equal hex.DecodeString) in H.
  rewrite !DecodeString_EncodeToString in H. now injection H.
Qed.

(** X2: within the limits the encoding tells entries apart: two entries
    with the same [MarshalBinary], or the same [Hex], are the same entry. *)
Theorem entry_encoding_injective (e1 e2 : Entry.t) :
  Layout.within_limits e1 -> Layout.within_limits e2 ->
  (Entry.MarshalBinary e1 = Entry.MarshalBinary e2 <-> e1 = e2) /\
  (Entry.Hex e1 = Entry.Hex e2 <-> e1 = e2).
Proof.
  intros H1 H2.
  assert (Hinj : Entry.MarshalBinary e1 = Entry.MarshalBinary e2 -> e1 = e2).
  { intros H. apply decode_MarshalBinary in H1, H2.
    rewrite H, H2 in H1. now injection H1. }
  split; split; try (intros ->; reflexivity).
  - exact Hinj.
  - intros H. apply Hinj, EncodeToString_inj, H.
Qed.

Lemma entry_encoding_injective_witness :
  Entry.Hex (Entry.mk [x01; x02] [[x41; x42]] [x43]) = Entry.Hex Examples.entry1
  <-> Entry.mk [x01; x02] [[x41; x42]] [x43] = Examples.entry1.
Proof.
  apply (entry_encoding_injective
           (Entry.mk [x01; x02] [[x41; x42]] [x43]) Examples.entry1).
  - split; [|split].
    + vm_compute. discriminate.
    + vm_compute. discriminate.
    + repeat constructor.
  - split; [|split].
    + vm_compute. discriminate.
    + vm_compute. discriminate.
    + repeat constructor.
Defined.

(** X3: beyond the limits the encoding no longer tells entries apart.
    Whatever the data [d], the entry with a chain id of 256 zero bytes and
    the entry without chain id whose data starts with 256 zero bytes are
    different entries with the same [MarshalBinary], [Hex] and [Hash]; and so
    are, whatever the chain id [c], the entry with 256 empty external ids and
    the entry without external ids whose data starts with 1024 zero bytes. *)
Theorem oversized_entries_collide (c d : list byte) :
  (Ambiguity.long_id d <> Ambiguity.long_data d /\
   Entry.MarshalBinary (Ambiguity.long_id d)
   = Entry.MarshalBinary (Ambiguity.long_data d) /\
   Entry.Hex (Ambiguity.long_id d) = Entry.Hex (Ambiguity.long_data d) /\
   Entry.Hash (Ambiguity.long_id d) = Entry.Hash (Ambiguity.long_data d)) /\
  (Ambiguity.many_ids c d <> Ambiguity.no_ids c d /\
   Entry.MarshalBinary (Ambiguity.many_ids c d)
   = Entry.MarshalBinary (Ambiguity.no_ids c d) /\
   Entry.Hex (Ambiguity.many_ids c d) = Entry.Hex (Ambiguity.no_ids c d) /\
   Entry.Hash (Ambiguity.many_ids c d) = Entry.Hash (Ambiguity.no_ids c d)).
Proof.
  assert (H1 : Entry.MarshalBinary (Ambiguity.long_id d)
               = Entry.MarshalBinary (Ambiguity.long_data d)).
  { rewrite !Entry_MarshalBinary_eq.
    cbn [Ambiguity.long_id Ambiguity.long_data Entry.ChainID Entry.ExtIDs
         Entry.Data Layout.prefixed flat_map].
    vm_compute. reflexivity. }
  assert (H2 : Entry.MarshalBinary (Ambiguity.many_ids c d)
               = Entry.MarshalBinary (Ambiguity.no_ids c d)).
  { rewrite !Entry_MarshalBinary_eq.
    cbn [Ambiguity.many_ids Ambiguity.no_ids Entry.ChainID Entry.ExtIDs Entry.Data].
    do 2 apply (f_equal (app _)). vm_compute. reflexivity. }
  split; split.
  - intros H. apply (f_equal Entry.ChainID) in H. discriminate.
  - split; [exact H1|]. unfold Entry.Hex, Entry.Hash. rewrite H1.
    split; reflexivity.
  - intros H. apply (f_equal Entry.ExtIDs) in H. discriminate.
  - split; [exact H2|]. unfold Entry.Hex, Entry.Hash. rewrite H2.
    split; reflexivity.
Qed.

(** X4: [Hex] can be read back: decoding the digits gives [MarshalBinary],
    and for an entry within the limits reading that by the layout gives the
    entry. *)
Theorem entry_hex_round_trip (e : Entry.t) :
  hex.DecodeString (Entry.Hex e) = Some (Entry.MarshalBinary e) /\
  (Layout.within_limits e ->
   match hex.DecodeString (Entry.Hex e) with
   | Some bs => Layout.decode bs
   | None => None
   end = Some e).
Proof.
  unfold Entry.Hex. rewrite DecodeString_EncodeToString.
  split; [reflexivity|apply decode_MarshalBinary].
Qed.

Lemma entry_hex_round_trip_witness :
  match hex.DecodeString (Entry.Hex Examples.entry1) with
  | Some bs => Layout.decode bs
  | None => None
  end = Some Examples.entry1.
Proof.
  apply (proj2 (entry_hex_round_trip Examples.entry1)).
  split; [|split].
  - vm_compute. discriminate.
  - vm_compute. discriminate.
  - repeat constructor.
Defined.

Lemma read_segments_prefixed (l : list (list byte)) (rest : list byte) :
  Forall (fun x => len x < 2 ^ 64) l ->
  ChainLayout.read_segments (List.length l)
    (Layout.prefixed (fun n => BigEndian.PutUint64 (uint64 n)) l ++ rest)
  = Some (l, rest).
Proof.
  induction 1 as [|x l Hx Hl IH]; [reflexivity|].
  cbn [List.length ChainLayout.read_segments Layout.prefixed flat_map].
  fold (Layout.prefixed (fun n => BigEndian.PutUint64 (uint64 n)) l).
  rewrite <- !app_assoc.
  set (tail := Layout.prefixed _ l ++ rest) in *.
  assert (Hn : Z.to_nat (BigEndian.Uint (BigEndian.PutUint64 (uint64 (len x))))
               = List.length x).
  { rewrite Uint_PutUint64. unfold uint64. pose proof (len_nonneg x).
    rewrite Z.mod_mod, Z.mod_small by lia. apply len_to_nat. }
  change (firstn 8 (BigEndian.PutUint64 (uint64 (len x)) ++ x ++ tail))
    with (BigEndian.PutUint64 (uint64 (len x))).
  change (skipn 8 (BigEndian.PutUint64 (uint64 (len x)) ++ x ++ tail))
    with (x ++ tail).
  change (List.length (BigEndian.PutUint64 (uint64 (len x)) ++ x ++ tail) <? 8)%nat
    with false.
  rewrite Hn.
  replace (List.length (x ++ tail) <? List.length x)%nat with false
    by (symmetry; apply Nat.ltb_ge; rewrite length_app; lia).
  rewrite skipn_length_app, firstn_length_app, IH. reflexivity.
Qed.

Lemma decode_chain (c : Chain.t) :
  len (Chain.Name c) < 2 ^ 64 ->
  Forall (fun x => len x < 2 ^ 64) (Chain.Name c) ->
  ChainLayout.decode (List.length (Chain.ChainID c)) (Chain.MarshalBinary c)
  = Some (Chain.ChainID c, Chain.Name c).
Proof.
  intros Hn Hx. rewrite Chain_MarshalBinary_eq. unfold ChainLayout.decode.
  replace (List.length (Chain.ChainID c ++ _) <? List.length (Chain.ChainID c))%nat
    with false by (symmetry; apply Nat.ltb_ge; rewrite length_app; lia).
  rewrite skipn_length_app, firstn_length_app.
  set (segs := Layout.prefixed _ (Chain.Name c)).
  change (firstn 8 (BigEndian.PutUint64 (uint64 (len (Chain.Name c))) ++ segs))
    with (BigEndian.PutUint64 (uint64 (len (Chain.Name c)))).
  change (skipn 8 (BigEndian.PutUint64 (uint64 (len (Chain.Name c))) ++ segs))
    with segs.
  change (List.length (BigEndian.PutUint64 (uint64 (len (Chain.Name c))) ++ segs) <? 8)%nat
    with false.
  rewrite Uint_PutUint64. unfold uint64. pose proof (len_nonneg (Chain.Name c)).
  rewrite Z.mod_mod, Z.mod_small, len_to_nat by lia.
  subst segs. rewrite <- (app_nil_r (Layout.prefixed _ _)).
  rewrite read_segments_prefixed by assumption. reflexivity.
Qed.

(** X5: an encoded chain can be read back by a reader that knows how long
    the chain id is: the id and the name segments come out as they went in.
    After [GenerateID] the id has 32 bytes, so reading 32 bytes of id gives
    the generated id and the name.  (The bound on the lengths holds of every
    Go slice.) *)
Theorem chain_round_trip (c : Chain.t) :
  len (Chain.Name c) < 2 ^ 64 ->
  Forall (fun x => len x < 2 ^ 64) (Chain.Name c) ->
  ChainLayout.decode (List.length (Chain.ChainID c)) (Chain.MarshalBinary c)
  = Some (Chain.ChainID c, Chain.Name c) /\
  ChainLayout.decode 32 (Chain.MarshalBinary (snd (Chain.GenerateID c)))
  = Some (Chain.ChainID (snd (Chain.GenerateID c)), Chain.Name c).
Proof.
  intros Hn Hx. split; [now apply decode_chain|].
  apply (decode_chain (snd (Chain.GenerateID c))); assumption.
Qed.

Lemma chain_round_trip_witness :
  ChainLayout.decode 1 (Chain.MarshalBinary Examples.chain1)
  = Some ([x09], [[x61; x62]; [x63]]) /\
  ChainLayout.decode 32 (Chain.MarshalBinary (snd (Chain.GenerateID Examples.chain1)))
  = Some (Chain.ChainID (snd (Chain.GenerateID Examples.chain1)),
          [[x61; x62]; [x63]]).
Proof.
  apply (chain_round_trip Examples.chain1).
  - reflexivity.
  - repeat constructor.
Defined.

(** X6: a reader that does not know the length of the chain id cannot tell
    chains apart.  Whatever the id, the chain with the one name segment of
    eight zero bytes and the chain without segments, whose id is longer by the
    bytes of the numbers 1 and 8, are different chains with the same
    [MarshalBinary] and [Hex]. *)
Theorem chain_encoding_ambiguous (id : list byte) (first : option Entry.t) :
  Ambiguity.one_segment id first <> Ambiguity.no_segment id first /\
  Chain.MarshalBinary (Ambiguity.one_segment id first)
  = Chain.MarshalBinary (Ambiguity.no_segment id first) /\
  Chain.Hex (Ambiguity.one_segment id first)
  = Chain.Hex (Ambiguity.no_segment id first).
Proof.
  assert (H : Chain.MarshalBinary (Ambiguity.one_segment id first)
              = Chain.MarshalBinary (Ambiguity.no_segment id first)).
  { rewrite !Chain_MarshalBinary_eq.
    cbn [Ambiguity.one_segment Ambiguity.no_segment Chain.ChainID Chain.Name].
    rewrite <- app_assoc. f_equal; try (vm_compute; reflexivity). }
  split; [|split; [exact H|]].
  - intros E. apply (f_equal Chain.Name) in E. discriminate.
  - unfold Chain.Hex. rewrite H. reflexivity.
Qed.

Lemma EncodeToString_app (a b : list byte) :
  hex.EncodeToString (a ++ b)
  = (hex.EncodeToString a ++ hex.EncodeToString b)%string.
Proof.
  induction a as [|v a IH]; [reflexivity|].
  cbn [app hex.EncodeToString String.append]. now rewrite IH.
Qed.

Lemma prefix_append (a b : string) : String.prefix a (a ++ b) = true.
Proof.
  induction a as [|c a IH]; cbn; [now destruct b|].
  destruct (ascii_dec c c) as [_|Hc]; [exact IH|now elim Hc].
Qed.

(** X7: the chain id that [GenerateID] returns is what the encoding of the
    chain starts with: it is the hexadecimal rendering of the first 32 bytes
    of [MarshalBinary], and the first 64 digits of [Hex], of the chain it
    leaves.  The id is made from the name alone, whatever the former id and
    the first entry, and calling [GenerateID] again changes nothing. *)
Theorem generate_id_then_hex (c : Chain.t) :
  fst (Chain.GenerateID c)
  = hex.EncodeToString
      (firstn 32 (Chain.MarshalBinary (snd (Chain.GenerateID c)))) /\
  String.prefix (fst (Chain.GenerateID c))
                (Chain.Hex (snd (Chain.GenerateID c))) = true /\
  String.length (fst (Chain.GenerateID c)) = 64%nat /\
  (forall c' : Chain.t,
      Chain.Name c' = Chain.Name c ->
      fst (Chain.GenerateID c') = fst (Chain.GenerateID c)) /\
  Chain.GenerateID (snd (Chain.GenerateID c)) = Chain.GenerateID c.
Proof.
  assert (Hid : fst (Chain.GenerateID c)
                = hex.EncodeToString (Chain.ChainID (snd (Chain.GenerateID c))))
    by reflexivity.
  assert (Hlen : List.length (Chain.ChainID (snd (Chain.GenerateID c))) = 32%nat)
    by reflexivity.
  split; [|split; [|split; [|split]]].
  - rewrite Chain_MarshalBinary_eq, <- Hlen, firstn_length_app. exact Hid.
  - unfold Chain.Hex. rewrite Chain_MarshalBinary_eq, EncodeToString_app, Hid.
    apply prefix_append.
  - rewrite Hid, EncodeToString_length, Hlen. reflexivity.
  - intros c' Hname. unfold Chain.GenerateID. rewrite Hname. reflexivity.
  - reflexivity.
Qed.

Lemma generate_id_then_hex_witness :
  fst (Chain.GenerateID Examples.chain1') = fst (Chain.GenerateID Examples.chain1).
Proof.
  apply (proj1 (proj2 (proj2 (proj2 (generate_id_then_hex Examples.chain1))))
           Examples.chain1').
  reflexivity.
Defined.

Lemma Uint4_range (a b c d : byte) : 0 <= BigEndian.Uint [a; b; c; d] < 2 ^ 32.
Proof.
  unfold BigEndian.Uint. cbn [fold_left].
  pose proof (Z_of_byte_range a). pose proof (Z_of_byte_range b).
  pose proof (Z_of_byte_range c). pose proof (Z_of_byte_range d). lia.
Qed.

Lemma prefixed_cons (put : Z -> list byte) (x : list byte) (l : list (list byte)) :
  Layout.prefixed put (x :: l) = put (len x) ++ x ++ Layout.prefixed put l.
Proof. unfold Layout.prefixed. cbn. now rewrite <- app_assoc. Qed.

Lemma read_extids_inv (count : nat) :
  forall (bs : list byte) (xs : list (list byte)) (rest : list byte),
    Layout.read_extids count bs = Some (xs, rest) ->
    bs = Layout.prefixed (fun n => BigEndian.PutUint32 (uint32 n)) xs ++ rest /\
    List.length xs = count /\
    Forall (fun x => len x < 2 ^ 32) xs.
Proof.
  induction count as [|count IH]; intros bs xs rest H; cbn [Layout.read_extids] in H.
  - injection H as <- <-. repeat split. constructor.
  - destruct (List.length bs <? 4)%nat eqn:H4; [discriminate|].
    apply Nat.ltb_ge in H4.
    destruct bs as [|a [|b [|c [|d bs]]]]; cbn in H4; try lia.
    cbn [firstn skipn] in H.
    set (n := Z.to_nat (BigEndian.Uint [a; b; c; d])) in *.
    destruct (List.length bs <? n)%nat eqn:Hn; [discriminate|].
    apply Nat.ltb_ge in Hn.
    destruct (Layout.read_extids count (skipn n bs)) as [[ys rest']|] eqn:Hrec;
      [|discriminate].
    injection H as <- <-. apply IH in Hrec. destruct Hrec as (Hbs & Hlen & Hall).
    pose proof (Uint4_range a b c d) as Hr.
    assert (Hx : len (firstn n bs) = BigEndian.Uint [a; b; c; d]).
    { unfold len. rewrite firstn_length_le by exact Hn. subst n. lia. }
    repeat split.
    + rewrite prefixed_cons, Hx. unfold uint32 at 1.
      rewrite Z.mod_small by exact Hr.
      rewrite PutUint32_Uint, <- !app_assoc, <- Hbs.
      cbn [app]. now rewrite firstn_skipn.
    + cbn. now rewrite Hlen.
    + constructor; [rewrite Hx; apply Hr|exact Hall].
Qed.

(** X18: what can be read back is an encoding.  When a byte sequence is
    read as an entry by the inverse of the layout, the entry is within the
    limits and [MarshalBinary] of it is that byte sequence: reading and
    encoding are inverse to each other between the entries within the limits
    and the byte sequences that can be read. *)
Theorem decoded_is_encoded (bs : list byte) (e : Entry.t) :
  Layout.decode bs = Some e ->
  Entry.MarshalBinary e = bs /\ Layout.within_limits e.
Proof.
  unfold Layout.decode. destruct bs as [|b bs]; [discriminate|].
  set (n := Z.to_nat (Z_of_byte b)).
  destruct (List.length bs <? n)%nat eqn:Hn; [discriminate|].
  apply Nat.ltb_ge in Hn.
  destruct (skipn n bs) as [|c rest] eqn:Hskip; [discriminate|].
  destruct (Layout.read_extids (Z.to_nat (Z_of_byte c)) rest) as [[xs data]|] eqn:Hx;
    [|discriminate].
  intros H. injection H as <-.
  apply read_extids_inv in Hx. destruct Hx as (Hrest & Hcount & Hall).
  pose proof (Z_of_byte_range b) as Hb. pose proof (Z_of_byte_range c) as Hc.
  assert (Hid : len (firstn n bs) = Z_of_byte b).
  { unfold len. rewrite firstn_length_le by exact Hn. subst n. lia. }
  assert (Hxs : len xs = Z_of_byte c) by (unfold len; lia).
  split.
  - rewrite Entry_MarshalBinary_eq. cbn [Entry.ChainID Entry.ExtIDs Entry.Data].
    rewrite Hid, Hxs, !byte_of_Z_of_byte, <- Hrest.
    cbn [app]. f_equal. rewrite <- (firstn_skipn n bs) at 2. now rewrite Hskip.
  - split; [|split]; cbn [Entry.ChainID Entry.ExtIDs]; try lia. exact Hall.
Qed.

Lemma decoded_is_encoded_witness :
  Entry.MarshalBinary Examples.entry1
  = [x02; x01; x02; x01; x00; x00; x00; x02; x41; x42; x43] /\
  Layout.within_limits Examples.entry1.
Proof.
  apply (decoded_is_encoded
           [x02; x01; x02; x01; x00; x00; x00; x02; x41; x42; x43]
           Examples.entry1).
  reflexivity.
Defined.

(** * Further properties of the dispatcher *)

Section Executions.

Import json wsapi Trace.

(** Every run is an execution: the calls [run] makes and the result it
    returns. *)
Lemma run_exec (W A : Type) (h : world W) (p : prog A) (w : W) :
  exec p (trace h p w) (fst (run h p w)).
Proof.
  revert w. induction p as [a|X c k IH]; intros w; cbn.
  - split; reflexivity.
  - destruct (h X c w) as [x w']. exists x, (trace h (k x) w').
    split; [reflexivity|apply IH].
Qed.

Lemma run_without_call (W A : Type) (h : world W) (p : prog A) (w : W) :
  trace h p w = [] -> snd (run h p w) = w.
Proof.
  destruct p as [a|X c k]; cbn; [reflexivity|].
  destruct (h X c w). discriminate.
Qed.

Lemma exec_bind (A B : Type) (p : prog A) (f : A -> prog B)
      (t : list event) (b : B) :
  exec (bind p f) t b ->
  exists t1 t2 a, t = t1 ++ t2 /\ exec p t1 a /\ exec (f a) t2 b.
Proof.
  revert t. induction p as [a|X c k IH]; intros t H; cbn in H.
  - exists [], t, a. repeat split. exact H.
  - destruct H as (x & t' & -> & H). apply IH in H.
    destruct H as (t1 & t2 & a & -> & Hp & Hf).
    exists (Ev c x :: t1), t2, a. split; [reflexivity|]. split; [|exact Hf].
    cbn. exists x, t1. split; [reflexivity|exact Hp].
Qed.

Lemma fails_fast_later (e0 : event) (t : list event) (r : reply) :
  failure e0 = None -> fails_fast t r -> fails_fast (e0 :: t) r.
Proof.
  intros H0 H t1 t2 e msg Ht Hf. destruct t1 as [|e1 t1]; cbn in Ht.
  - injection Ht as -> _. congruence.
  - injection Ht as _ Ht. exact (H t1 t2 e msg Ht Hf).
Qed.

Lemma fails_fast_nil (r : reply) : fails_fast [] r.
Proof. intros [|? ?] ? ? ? H; discriminate H. Qed.

(** *** What each handler answers *)

Lemma handleAddress_shape (params : value) (t : list event) (r : reply) :
  exec (handleAddress params) t r ->
  answered (bindable addressRequest params) t r /\ fails_fast t r.
Proof.
  unfold handleAddress, bindable.
  destruct (mapToObject params zero) as [req|err]; intros H; unfold_exec H.
  all: conclude.
Qed.

Lemma handleAllAddresses_shape (params : value) (t : list event) (r : reply) :
  exec (handleAllAddresses params) t r -> answered true t r /\ fails_fast t r.
Proof. unfold handleAllAddresses. intros H; unfold_exec H. all: conclude. Qed.

Lemma handleGenerateECAddress_shape (params : value) (t : list event) (r : reply) :
  exec (handleGenerateECAddress params) t r -> answered true t r /\ fails_fast t r.
Proof. unfold handleGenerateECAddress. intros H; unfold_exec H. all: conclude. Qed.

Lemma handleGenerateFactoidAddress_shape (params : value) (t : list event)
      (r : reply) :
  exec (handleGenerateFactoidAddress params) t r ->
  answered true t r /\ fails_fast t r.
Proof.
  unfold handleGenerateFactoidAddress. intros H; unfold_exec H. all: conclude.
Qed.

Lemma handleWalletBackup_shape (params : value) (t : list event) (r : reply) :
  exec (handleWalletBackup params) t r -> answered true t r /\ fails_fast t r.
Proof. unfold handleWalletBackup. intros H; unfold_exec H. all: conclude. Qed.

Lemma importAddresses_shape (l : list importAddress) :
  forall (resp : multiAddressResponse) (t : list event) (r : reply),
    exec (importAddresses l resp) t r -> answered true t r /\ fails_fast t r.
Proof.
  induction l as [|v l IH]; intros resp t r H; unfold_exec H.
  all: try (apply IH in H; destruct H as [(Hr & Hp & Hm & Hq & _) Hf]; split;
            [ repeat split; try assumption; try apply Hp;
              intros Hi; apply Hp in Hi; discriminate Hi
            | repeat (apply fails_fast_later; [reflexivity|]); exact Hf ]).
  all: conclude.
Qed.

Lemma handleImportAddresses_shape (params : value) (t : list event) (r : reply) :
  exec (handleImportAddresses params) t r ->
  answered (bindable importRequest params) t r /\ fails_fast t r.
Proof.
  unfold handleImportAddresses, bindable.
  destruct (mapToObject params zero) as [req|err]; intros H.
  - apply importAddresses_shape in H. exact H.
  - unfold_exec H. conclude.
Qed.

(** The nine handlers of the named transactions. *)
Lemma transaction_shapes (params : value) (t : list event) (r : reply) :
  (exec (handleNewTransaction params) t r ->
   answered (bindable transactionRequest params) t r /\ fails_fast t r) /\
  (exec (handleDeleteTransaction params) t r ->
   answered (bindable transactionRequest params) t r /\ fails_fast t r) /\
  (exec (handleAddInput params) t r ->
   answered (bindable transactionValueRequest params) t r /\ fails_fast t r) /\
  (exec (handleAddOutput params) t r ->
   answered (bindable transactionValueRequest params) t r /\ fails_fast t r) /\
  (exec (handleAddECOutput params) t r ->
   answered (bindable transactionValueRequest params) t r /\ fails_fast t r) /\
  (exec (handleAddFee params) t r ->
   answered (bindable transactionAddressRequest params) t r /\ fails_fast t r) /\
  (exec (handleSubFee params) t r ->
   answered (bindable transactionAddressRequest params) t r /\ fails_fast t r) /\
  (exec (handleSignTransaction params) t r ->
   answered (bindable transactionRequest params) t r /\ fails_fast t r) /\
  (exec (handleComposeTransaction params) t r ->
   answered (bindable transactionRequest params) t r /\ fails_fast t r).
Proof.
  unfold handleNewTransaction, handleDeleteTransaction, handleAddInput,
    handleAddOutput, handleAddECOutput, handleAddFee, handleSubFee,
    handleSignTransaction, handleComposeTransaction, bindable, success.
  repeat apply conj; intros H;
    match type of H with
    | context [mapToObject params ?z] => destruct (mapToObject params z)
    end; unfold_exec H.
  all: conclude.
Qed.

End Executions.

Section Requests.

Import json wsapi Trace.

Lemma run_bind (W A B : Type) (h : world W) (p : prog A) (f : A -> prog B) (w : W) :
  run h (bind p f) w = run h (f (fst (run h p w))) (snd (run h p w)).
Proof.
  revert w. induction p as [a|X c k IH]; intros w; cbn; [reflexivity|].
  destruct (h X c w) as [x w']. apply IH.
Qed.

Lemma trace_bind (W A B : Type) (h : world W) (p : prog A) (f : A -> prog B) (w : W) :
  trace h (bind p f) w
  = trace h p w ++ trace h (f (fst (run h p w))) (snd (run h p w)).
Proof.
  revert w. induction p as [a|X c k IH]; intros w; cbn; [reflexivity|].
  destruct (h X c w) as [x w']. cbn. now rewrite IH.
Qed.

(** The [switch]: a handler's answer for each of the fifteen methods, the
    method-not-found error without any call for every other one. *)
Lemma dispatch_exec (m : string) (params : value) (t : list event) (r : reply) :
  exec (dispatch m params) t r ->
  (In m methods /\ answered (binds m params) t r /\ fails_fast t r) \/
  (~ In m methods /\ t = [] /\ r = (None, Some newMethodNotFoundError)).
Proof.
  unfold dispatch, binds.
  pose proof (transaction_shapes params t r)
    as (Hnew & Hdel & Hin & Hout & Hec & Hfee & Hsub & Hsign & Hcomp).
  repeat match goal with
         | |- context [String.eqb m ?s] =>
             destruct (String.eqb_spec m s) as [->|?];
             [ cbn [String.eqb Ascii.eqb Bool.eqb];
               intros H; left; split; [cbn; tauto|];
               first [ apply handleAddress_shape, H
                     | apply (handleAllAddresses_shape params), H
                     | apply (handleGenerateECAddress_shape params), H
                     | apply (handleGenerateFactoidAddress_shape params), H
                     | apply handleImportAddresses_shape, H
                     | apply (handleWalletBackup_shape params), H
                     | apply Hnew, H | apply Hdel, H | apply Hin, H
                     | apply Hout, H | apply Hec, H | apply Hfee, H
                     | apply Hsub, H | apply Hsign, H | apply Hcomp, H ]
             | ]
         end.
  intros H. cbn in H. destruct H as [-> <-].
  right. split; [|split; reflexivity].
  cbn. intuition congruence.
Qed.

(** [handleV2Request] adds nothing to the calls of the handler and wraps
    its answer. *)
Lemma handleV2Request_run (W : Type) (h : world W) (w : W) (j : JSON2Request) :
  trace h (handleV2Request j) w = trace h (dispatch (Method j) (Params j)) w /\
  snd (run h (handleV2Request j) w) = snd (run h (dispatch (Method j) (Params j)) w) /\
  fst (run h (handleV2Request j) w)
  = match fst (run h (dispatch (Method j) (Params j)) w) with
    | (_, Some e) => (None, Some e)
    | (resp, None) =>
        (Some {| rID := ID j; Result := resp; Error := None |}, None)
    end.
Proof.
  unfold handleV2Request. rewrite run_bind, trace_bind.
  destruct (fst (run h (dispatch (Method j) (Params j)) w)) as [resp [e|]];
    cbn; rewrite ?app_nil_r; repeat split.
Qed.

Lemma dispatch_answer (W : Type) (h : world W) (w : W) (m : string)
      (params : value) :
  (exists p : payload, fst (run h (dispatch m params) w) = (Some p, None)) \/
  (exists e : JSONError,
      fst (run h (dispatch m params) w) = (None, Some e) /\ e <> InvalidRequest).
Proof.
  pose proof (run_exec W _ h (dispatch m params) w) as H.
  apply dispatch_exec in H.
  destruct H as [(_ & Ha & _)|(_ & _ & Hr)].
  - destruct Ha as (Hshape & _ & _ & Hq & _).
    destruct Hshape as [[p Hr]|[e Hr]]; rewrite Hr in *; cbn in *.
    + left. now exists p.
    + right. exists e. split; [reflexivity|]. intros ->. now apply Hq.
  - rewrite Hr. right. exists newMethodNotFoundError.
    split; [reflexivity|discriminate].
Qed.

(** X8: whatever the wallet answers, [handleV2Request] returns either a
    response and no error, or an error and no response, never both and never
    neither.  The response carries the identifier of the request, a result
    and no error; the error is never the invalid-request error. *)
Theorem request_answered_once (W : Type) (h : world W) (w : W) (j : JSON2Request) :
  (exists p : payload,
      fst (run h (handleV2Request j) w)
      = (Some {| rID := ID j; Result := Some p; Error := None |}, None)) \/
  (exists e : JSONError,
      fst (run h (handleV2Request j) w) = (None, Some e) /\ e <> InvalidRequest).
Proof.
  destruct (handleV2Request_run W h w j) as (_ & _ & ->).
  destruct (dispatch_answer W h w (Method j) (Params j)) as [[p Hr]|[e [Hr He]]];
    rewrite Hr.
  - left. now exists p.
  - right. now exists e.
Qed.

(** X9: the two errors of the dispatcher are exact.  The answer is the
    method-not-found error if and only if the method is none of the fifteen
    names, and the invalid-params error if and only if the params do not fill
    the request struct of the method's handler; in both cases no call was
    made and the wallet is as it was. *)
Theorem dispatcher_errors_exact (W : Type) (h : world W) (w : W) (j : JSON2Request) :
  (snd (fst (run h (handleV2Request j) w)) = Some MethodNotFound
   <-> ~ In (Method j) methods) /\
  (snd (fst (run h (handleV2Request j) w)) = Some InvalidParams
   <-> binds (Method j) (Params j) = false) /\
  (snd (fst (run h (handleV2Request j) w)) = Some MethodNotFound \/
   snd (fst (run h (handleV2Request j) w)) = Some InvalidParams ->
   trace h (handleV2Request j) w = [] /\ snd (run h (handleV2Request j) w) = w).
Proof.
  assert (Hsnd : snd (fst (run h (handleV2Request j) w))
                 = snd (fst (run h (dispatch (Method j) (Params j)) w))).
  { destruct (handleV2Request_run W h w j) as (_ & _ & ->).
    now destruct (fst (run h (dispatch (Method j) (Params j)) w)) as [resp [e|]]. }
  assert (Hnil : trace h (handleV2Request j) w = [] ->
                 snd (run h (handleV2Request j) w) = w)
    by apply run_without_call.
  destruct (handleV2Request_run W h w j) as (Ht & _ & _).
  rewrite Hsnd, Ht in *. clear Hsnd Ht.
  pose proof (run_exec W _ h (dispatch (Method j) (Params j)) w) as H.
  apply dispatch_exec in H.
  destruct H as [(Hin & (_ & Hp & Hm & _ & Hnone) & _)|(Hout & Ht & Hr)].
  - split; [|split].
    + split; [intros E; now elim Hm|intros E; now elim E].
    + exact Hp.
    + intros [E|E]; [now elim Hm|]. split; [|apply Hnil]; now apply Hnone.
  - rewrite Hr, Ht in *. cbn. split; [|split].
    + split; [intros _; exact Hout|reflexivity].
    + split; [discriminate|].
      intros Hb. exfalso. revert Hb Hout. clear. unfold binds.
      repeat match goal with
             | |- context [String.eqb ?m ?s] =>
                 destruct (String.eqb_spec m s) as [->|?];
                 [intros _ Hout; apply Hout; cbn; tauto|]
             end.
      discriminate.
    + intros _. split; [reflexivity|apply Hnil; reflexivity].
Qed.

(** X12: every handler stops at the first error.  When one of the calls
    made for a request returns an error, it is the last call made, and the
    request is answered by the internal error that carries the message of
    that error. *)
Theorem handlers_fail_fast (W : Type) (h : world W) (w : W) (j : JSON2Request)
        (t1 t2 : list event) (e : event) (msg : error) :
  trace h (handleV2Request j) w = t1 ++ e :: t2 ->
  failure e = Some msg ->
  t2 = [] /\
  fst (run h (handleV2Request j) w) = (None, Some (InternalError msg)).
Proof.
  destruct (handleV2Request_run W h w j) as (-> & _ & ->).
  pose proof (run_exec W _ h (dispatch (Method j) (Params j)) w) as H.
  apply dispatch_exec in H. intros Ht Hf.
  destruct H as [(_ & _ & Hfast)|(_ & Hnil & _)].
  - destruct (Hfast t1 t2 e msg Ht Hf) as [-> ->]. split; reflexivity.
  - rewrite Hnil in Ht. destruct t1; discriminate Ht.
Qed.

Lemma handlers_fail_fast_witness :
  fst (run Examples.refusing
         (handleV2Request {| Method := "wallet-backup"; Params := Null; ID := Null |})
         tt)
  = (None, Some (InternalError "refused")).
Proof.
  apply (handlers_fail_fast unit Examples.refusing tt
           {| Method := "wallet-backup"; Params := Null; ID := Null |}
           [] [] (Ev (Wallet WGetSeed) (Err "refused"%string)) "refused"%string);
    reflexivity.
Defined.

End Requests.

Section Handlers.

Import json wsapi Trace.

(** X10: [handleV2] writes one response, whatever happens.  When the body
    cannot be read or parsed it is the error response for the invalid-request
    error, made without a request, and the wallet is not called.  When the
    body is parsed into [j] it is either a response with the identifier of
    [j], a result and no error, or the error response made from [j] and the
    error of the handler. *)
Theorem handleV2_responds (W : Type) (h : world W) (w : W) :
  match request_of (trace h handleV2 w) with
  | None =>
      fst (run h handleV2 w) = Some (handleV2Error None newInvalidRequestError) /\
      wallet_calls (trace h handleV2 w) = 0%nat
  | Some j =>
      (exists p : payload,
          fst (run h handleV2 w)
          = Some {| rID := ID j; Result := Some p; Error := None |}) \/
      (exists e : JSONError,
          fst (run h handleV2 w) = Some (handleV2Error (Some j) e) /\
          e <> InvalidRequest)
  end.
Proof.
  unfold handleV2. cbn [run trace].
  destruct (h _ (Context ReadAll) w) as [[body|e] w1]; cbn;
    [|split; reflexivity].
  destruct (h _ (Factom (ParseJSON2Request body)) w1) as [[j|e] w2]; cbn;
    [|split; reflexivity].
  unfold respond. rewrite run_bind.
  destruct (handleV2Request_run W h w2 j) as (_ & _ & ->).
  destruct (dispatch_answer W h w2 (Method j) (Params j)) as [[p Hr]|[e [Hr He]]];
    rewrite Hr; cbn.
  - left. now exists p.
  - right. now exists e.
Qed.

(** *** Handlers that only look the wallet up *)

Lemma lookups_exec (m : string) (params : value) (t : list event) (r : reply) :
  In m lookup_methods -> exec (dispatch m params) t r -> only_reads t = true.
Proof.
  intros Hm H. cbn in Hm.
  destruct Hm as [<-|[<-|[<-|[]]]];
    change (exec (handleAddress params) t r) in H
    || change (exec (handleAllAddresses params) t r) in H
    || change (exec (handleWalletBackup params) t r) in H.
  - unfold handleAddress in H.
    destruct (mapToObject params zero); unfold_exec H; reflexivity.
  - unfold handleAllAddresses in H. unfold_exec H; reflexivity.
  - unfold handleWalletBackup in H. unfold_exec H; reflexivity.
Qed.

(** X11: the methods [address], [all-addresses] and [wallet-backup] only
    look the wallet up: whatever the params and whatever the wallet answers,
    the only methods of the wallet they call are [GetECAddress],
    [GetFCTAddress], [GetAllAddresses] and [GetSeed]. *)
Theorem lookups_only_read (W : Type) (h : world W) (w : W) (j : JSON2Request) :
  In (Method j) lookup_methods ->
  only_reads (trace h (handleV2Request j) w) = true.
Proof.
  intros Hm. destruct (handleV2Request_run W h w j) as (-> & _ & _).
  apply (lookups_exec (Method j) (Params j) _ _ Hm (run_exec W _ h _ w)).
Qed.

Lemma lookups_only_read_witness :
  only_reads
    (trace Stocked.wallet
       (handleV2Request {| Method := "wallet-backup"; Params := Null; ID := Null |})
       tt) = true.
Proof.
  apply (lookups_only_read unit Stocked.wallet tt
           {| Method := "wallet-backup"; Params := Null; ID := Null |}).
  cbn. tauto.
Defined.

(** *** Listing the addresses *)

Lemma appendAddresses_eq (l : list addressResponse) (fs : list FactoidAddress)
      (es : list ECAddress) :
  appendAddresses l fs es
  = l ++ map mkAddressResponse fs ++ map mkAddressResponse es.
Proof.
  unfold appendAddresses.
  assert (Hloop : forall (A : Type) (f : A -> addressResponse) (xs : list A)
                         (acc : list addressResponse),
             fold_left (fun l x => l ++ [f x]) xs acc = acc ++ map f xs).
  { intros A f xs. induction xs as [|x xs IH]; intros acc; cbn.
    - symmetry. apply app_nil_r.
    - rewrite IH, <- app_assoc. reflexivity. }
  rewrite !Hloop, <- app_assoc. reflexivity.
Qed.

(** X16: [all-addresses] and [wallet-backup] list every address the wallet
    returns exactly once: the factoid addresses first, then the entry-credit
    addresses, each group in the wallet's order, each with its public and
    secret rendering; the backup carries the seed the wallet returned. *)
Theorem listings_in_order (W : Type) (h : world W) (w0 w w1 : W) (params : value)
        (seed : string) (fs : list FactoidAddress) (es : list ECAddress) :
  h _ (Wallet WGetAllAddresses) w = (Ok (fs, es), w1) ->
  run h (handleAllAddresses params) w
  = ((Some (PMulti
              {| mAddresses :=
                   map (fun f => {| Public := fctPub f; rSecret := fctSec f |}) fs
                   ++ map (fun e => {| Public := ecPub e; rSecret := ecSec e |}) es |}),
      None), w1) /\
  (h _ (Wallet WGetSeed) w0 = (Ok seed, w) ->
   run h (handleWalletBackup params) w0
   = ((Some (PBackup
               {| Seed := seed;
                  bAddresses :=
                    map (fun f => {| Public := fctPub f; rSecret := fctSec f |}) fs
                    ++ map (fun e => {| Public := ecPub e; rSecret := ecSec e |}) es |}),
       None), w1)).
Proof.
  intros Hall. split.
  - cbn. rewrite Hall. cbn. rewrite appendAddresses_eq. reflexivity.
  - intros Hseed. cbn. rewrite Hseed. cbn. rewrite Hall. cbn.
    rewrite appendAddresses_eq. reflexivity.
Qed.

Lemma listings_in_order_witness :
  fst (run Stocked.wallet (handleAllAddresses Null) tt)
  = (Some (PMulti
             {| mAddresses :=
                  [ {| Public := "FA1"; rSecret := "Fs1" |};
                    {| Public := "EC1"; rSecret := "Es1" |} ] |}),
     None).
Proof.
  rewrite (proj1 (listings_in_order unit Stocked.wallet tt tt tt Null "seed"
                    [Stocked.fct1] [Stocked.ec1] eq_refl)).
  reflexivity.
Defined.

(** X17: [address] looks up public addresses only.  When the params fill
    the request and the address in it is classified as anything but [ECPub]
    or [FactoidPub] (a secret key, or no address at all), the answer is the
    internal error "Invalid address type" and the wallet is not called. *)
Theorem address_kind_refused (W : Type) (h : world W) (w : W) (params : value)
        (req : addressRequest) :
  mapToObject params zero = inl req ->
  fst (h _ (Factom (AddressStringType (Address req))) w) <> ECPub ->
  fst (h _ (Factom (AddressStringType (Address req))) w) <> FactoidPub ->
  fst (run h (handleAddress params) w)
  = (None, Some (InternalError "Invalid address type")) /\
  wallet_calls (trace h (handleAddress params) w) = 0%nat.
Proof.
  intros Hreq Hec Hfct. unfold handleAddress. rewrite Hreq. cbn in *.
  destruct (h _ (Factom (AddressStringType (Address req))) w) as [k w1].
  destruct k; cbn in *; try (split; reflexivity).
  - now elim Hfct.
  - now elim Hec.
Qed.

Lemma address_kind_refused_witness :
  fst (run Stocked.wallet
         (handleAddress (Object [("address"%string, Str "Fs1")])) tt)
  = (None, Some (InternalError "Invalid address type")) /\
  wallet_calls
    (trace Stocked.wallet
       (handleAddress (Object [("address"%string, Str "Fs1")])) tt) = 0%nat.
Proof.
  apply (address_kind_refused unit Stocked.wallet tt
           (Object [("address"%string, Str "Fs1")]) {| Address := "Fs1" |}).
  - reflexivity.
  - discriminate.
  - discriminate.
Defined.

End Handlers.

Section Imports.

Import json wsapi Trace.

Lemma importAddresses_counts (l : list importAddress) :
  forall (resp : multiAddressResponse) (t : list event) (r : reply),
    exec (importAddresses l resp) t r ->
    match r with
    | (Some p, _) =>
        exists resp',
          p = PMulti resp' /\
          List.length (mAddresses resp')
          = (List.length (mAddresses resp) + List.length l)%nat /\
          List.length (filter stored t) = List.length l /\
          wallet_calls t = List.length l
    | (None, _) =>
        (List.length (filter stored t) < List.length l)%nat /\
        (wallet_calls t <= List.length l)%nat
    end.
Proof.
  induction l as [|v l IH]; intros resp t r H; unfold_exec H.
  all: try (apply IH in H; destruct r as [[p|] e]; cbn in *;
            [ destruct H as (resp' & -> & Hlen & Hst & Hw); exists resp';
              rewrite length_app in Hlen; cbn in Hlen;
              unfold wallet_calls in *; cbn;
              repeat split; lia
            | unfold wallet_calls in *; cbn; lia ]).
  all: try (cbn; unfold wallet_calls; cbn; lia).
  exists resp. unfold wallet_calls. cbn. repeat split; lia.
Qed.

(** X13: an import calls the wallet once per address, to store it, and
    stops at the first address that fails.  When [import-addresses] answers
    with a result, the result lists as many addresses as the params name and
    every one of them was stored; when it answers with an error after its
    params were accepted, fewer addresses were stored than were named. *)
Theorem import_counts (W : Type) (h : world W) (w : W) (params : value)
        (req : importRequest) :
  mapToObject params zero = inl req ->
  match fst (run h (handleImportAddresses params) w) with
  | (Some p, _) =>
      exists resp,
        p = PMulti resp /\
        List.length (mAddresses resp) = List.length (Addresses req) /\
        List.length (filter stored (trace h (handleImportAddresses params) w))
        = List.length (Addresses req) /\
        wallet_calls (trace h (handleImportAddresses params) w)
        = List.length (Addresses req)
  | (None, _) =>
      (List.length (filter stored (trace h (handleImportAddresses params) w))
       < List.length (Addresses req))%nat /\
      (wallet_calls (trace h (handleImportAddresses params) w)
       <= List.length (Addresses req))%nat
  end.
Proof.
  intros Hreq.
  pose proof (run_exec W _ h (handleImportAddresses params) w) as H.
  unfold handleImportAddresses in *. rewrite Hreq in *.
  apply importAddresses_counts in H. exact H.
Qed.

Lemma import_counts_witness :
  exists resp,
    fst (fst (run Stocked.wallet
                (handleImportAddresses
                   (import_params [{| Secret := "Fs1" |}; {| Secret := "Es1" |}]))
                tt))
    = Some (PMulti resp) /\
    List.length (mAddresses resp) = 2%nat.
Proof.
  pose proof (import_counts unit Stocked.wallet tt
                (import_params [{| Secret := "Fs1" |}; {| Secret := "Es1" |}])
                {| Addresses := [{| Secret := "Fs1" |}; {| Secret := "Es1" |}] |}
                eq_refl) as H.
  cbn in H. destruct H as (resp & Hp & Hlen & _).
  exists resp. split; [exact (f_equal Some Hp)|exact Hlen].
Defined.

(** The params made of a list of secrets are bound to that list. *)
Lemma import_params_bound (l : list importAddress) :
  mapToObject (import_params l) zero = inl {| Addresses := l |}.
Proof.
  unfold mapToObject, Marshal, Unmarshal, import_params. cbn.
  assert (H : traverse (into_struct fields (zero (A := importAddress)))
                (map (fun v => Object [("secret"%string, Str (Secret v))]) l)
              = Some l).
  { induction l as [|[s] l IH]; [reflexivity|].
    cbn [map traverse]. rewrite IH. reflexivity. }
  cbn in H. rewrite H. reflexivity.
Qed.

Lemma import_good (good : list imported) :
  forall resp : multiAddressResponse,
    exec (importAddresses (map secret_of good) resp)
      (flat_map import_events good)
      (Some (PMulti {| mAddresses := mAddresses resp ++ map response_of good |}),
       None).
Proof.
  induction good as [|i good IH]; intros resp.
  - cbn. rewrite app_nil_r. destruct resp. split; reflexivity.
  - specialize (IH {| mAddresses := mAddresses resp ++ [response_of i] |}).
    cbn [mAddresses] in IH. rewrite <- app_assoc in IH.
    destruct i as [s f|s e]; cbn;
      repeat (eexists; eexists; split; [reflexivity|]); exact IH.
Qed.

Lemma import_bad (good : list imported) (bad : importAddress)
      (rest : list importAddress) (k : addressStringType) :
  k <> FactoidSec -> k <> ECSec ->
  forall resp : multiAddressResponse,
    exec (importAddresses (map secret_of good ++ bad :: rest) resp)
      (flat_map import_events good ++ [Ev (Factom (AddressStringType (Secret bad))) k])
      (None, Some (InternalError "address could not be imported")).
Proof.
  intros Hf He. induction good as [|i good IH]; intros resp.
  - cbn. exists k, []. split; [reflexivity|].
    destruct k; try (split; reflexivity); congruence.
  - specialize (IH {| mAddresses := mAddresses resp ++ [response_of i] |}).
    destruct i as [s f|s e]; cbn;
      repeat (eexists; eexists; split; [reflexivity|]); exact IH.
Qed.

Lemma stored_good (good : list imported) (t : list event) :
  List.length (filter stored (flat_map import_events good ++ t))
  = (List.length good + List.length (filter stored t))%nat.
Proof.
  induction good as [|i good IH]; [reflexivity|].
  destruct i; cbn; rewrite IH; reflexivity.
Qed.

(** X14: addresses are imported one after the other, in the order of the
    request, and nothing is undone.  When every secret is recognized, turned
    into an address and stored, the result lists the addresses in the order
    of the request.  When the secrets before one of an unrecognized kind are
    imported so, the request is answered by the internal error "address could
    not be imported", the result gathered so far is dropped, and the addresses
    before it stay stored. *)
Theorem import_in_order (good : list imported) :
  exec (handleImportAddresses (import_params (map secret_of good)))
    (flat_map import_events good)
    (Some (PMulti {| mAddresses := map response_of good |}), None) /\
  (forall (bad : importAddress) (rest : list importAddress) (k : addressStringType),
      k <> FactoidSec -> k <> ECSec ->
      exec (handleImportAddresses (import_params (map secret_of good ++ bad :: rest)))
        (flat_map import_events good
         ++ [Ev (Factom (AddressStringType (Secret bad))) k])
        (None, Some (InternalError "address could not be imported")) /\
      List.length
        (filter stored
           (flat_map import_events good
            ++ [Ev (Factom (AddressStringType (Secret bad))) k]))
      = List.length good).
Proof.
  unfold handleImportAddresses. split.
  - rewrite import_params_bound. apply (import_good good {| mAddresses := [] |}).
  - intros bad rest k Hf He. rewrite import_params_bound. split.
    + now apply import_bad.
    + rewrite stored_good. cbn. lia.
Qed.

Lemma import_in_order_witness :
  exec (handleImportAddresses
          (import_params [{| Secret := "Fs1" |}; {| Secret := "zz" |}]))
    [ Ev (Factom (AddressStringType "Fs1")) FactoidSec;
      Ev (Factom (GetFactoidAddress "Fs1")) (Ok Stocked.fct1);
      Ev (Wallet (WPutFCTAddress Stocked.fct1)) None;
      Ev (Factom (AddressStringType "zz")) InvalidAddress ]
    (None, Some (InternalError "address could not be imported")).
Proof.
  refine (proj1 (proj2 (import_in_order [ImportedFCT "Fs1" Stocked.fct1])
                   {| Secret := "zz" |} [] InvalidAddress _ _));
    discriminate.
Defined.

(** *** Params without the field the handler reads *)

Lemma lacking_field (A : Type) (f : field A) (old : A)
      (members : list (string * value)) :
  lacks (fname f) members = true ->
  into_struct [f] old (Object members) = Some old.
Proof.
  cbn [into_struct]. induction members as [|[key v] members IH];
    cbn [lacks forallb fold_left fst snd]; [reflexivity|].
  intros H. apply andb_prop in H. destruct H as [Hkey Hrest].
  apply negb_true_iff in Hkey.
  assert (Hfind : find_field [f] key = None).
  { unfold find_field. cbn [find].
    destruct (String.eqb_spec (fname f) key) as [<-|_].
    - now rewrite String.eqb_refl in Hkey.
    - now rewrite Hkey. }
  rewrite Hfind. apply IH, Hrest.
Qed.



End Imports.
